(* Verification of the Nemo / Klix conversational agent runtime:
   the React front end (App.tsx, InputBar.tsx, useNemoSocket), the Nemo
   websocket server (server.py) and the agent-loop components that the
   design notes describe (AgentLoop, ContextWindow, ToolRegistry). *)

From Stdlib Require Import String Ascii List Bool Arith NArith Lia.
Import ListNotations.
Open Scope string_scope.
Set Warnings "-register-all".


(* ------------------------------------------------------------------ *)
(** * Front end: the transcript held by App.tsx *)

Module App.

Inductive role := RUser | RNemo.

(** [Message] of ChatPanel.tsx; the id and timestamp fields are derived
    from Date.now() and play no role in the properties below. *)
Record Message := { m_role : role; m_content : string }.

(** [NemoResponse] of useNemoSocket. *)
Record NemoResponse := {
  r_text : string;
  r_audio : string;
  r_visemes : list string;
  r_error : option string }.

(** The component state that the effects touch: the [messages] state,
    [processedResponseRef], [isTyping], the audio handed to [playAudio],
    and the texts handed to [sendMessage]. *)
Record AppState := {
  messages : list Message;
  processedResponseRef : option string;
  isTyping : bool;
  played : list string;
  sent : list string }.

Definition initial : AppState :=
  {| messages := []; processedResponseRef := None; isTyping := false;
     played := []; sent := [] |}.

(** JS truthiness of a string. *)
Definition truthy (s : string) : bool := negb (String.eqb s "").

(** [handleSend]: append the user message, set typing, send to backend. *)
Definition handleSend (text : string) (s : AppState) : AppState :=
  {| messages := messages s ++ [{| m_role := RUser; m_content := text |}];
     processedResponseRef := processedResponseRef s;
     isTyping := true;
     played := played s;
     sent := sent s ++ [text] |}.

(** The [useEffect] on [lastResponse]: skip an empty text, skip a text equal
    to [processedResponseRef.current], otherwise record it, append the Nemo
    message and play the audio when there is some. *)
Definition onResponse (r : NemoResponse) (s : AppState) : AppState :=
  if truthy (r_text r) then
    if (match processedResponseRef s with
        | Some p => String.eqb p (r_text r)
        | None => false
        end)
    then s
    else {| messages := messages s ++ [{| m_role := RNemo; m_content := r_text r |}];
            processedResponseRef := Some (r_text r);
            isTyping := false;
            played := if truthy (r_audio r) then played s ++ [r_audio r] else played s;
            sent := sent s |}
  else s.

(** Processing a sequence of responses in order. *)
Fixpoint onResponses (rs : list NemoResponse) (s : AppState) : AppState :=
  match rs with
  | [] => s
  | r :: rs' => onResponses rs' (onResponse r s)
  end.

(** The last non-empty text among the responses, if any. *)
Fixpoint last_nonempty (rs : list NemoResponse) (acc : option string) : option string :=
  match rs with
  | [] => acc
  | r :: rs' => last_nonempty rs' (if truthy (r_text r) then Some (r_text r) else acc)
  end.

End App.

(* ------------------------------------------------------------------ *)
(** * Front end: InputBar.tsx *)

Module InputBar.

(** A JS string, as the sequence of its UTF-16 code units. *)
Definition jsstring := list N.

(** The code units removed by String.prototype.trim (WhiteSpace and
    LineTerminator): tab, line feed, vertical tab, form feed, carriage
    return, space, U+00A0, U+1680, U+2000 to U+200A, U+2028, U+2029,
    U+202F, U+205F, U+3000 and U+FEFF. *)
Definition is_ws (c : N) : bool :=
  existsb (N.eqb c) [9; 10; 11; 12; 13; 32; 160; 5760; 8232; 8233; 8239; 8287; 12288; 65279]%N
  || (N.leb 8192 c && N.leb c 8202).

Fixpoint ltrim (s : jsstring) : jsstring :=
  match s with
  | [] => []
  | c :: r => if is_ws c then ltrim r else s
  end%list.

Definition is_empty (s : jsstring) : bool :=
  match s with [] => true | _ => false end%list.

Fixpoint rtrim (s : jsstring) : jsstring :=
  match s with
  | [] => []
  | c :: r =>
      let r' := rtrim r in
      if is_empty r' && is_ws c then [] else c :: r'
  end%list.

Definition trim (s : jsstring) : jsstring := rtrim (ltrim s).

(** The [input] state of the bar and the texts handed to [onSend]. *)
Record Bar := { input : jsstring; onSendCalls : list jsstring }.

(** [handleSend]: [if (trimmed && !disabled)], an empty string being falsy. *)
Definition handleSend (disabled : bool) (b : Bar) : Bar :=
  let trimmed := trim (input b) in
  if negb (is_empty trimmed) && negb disabled
  then {| input := []; onSendCalls := (onSendCalls b ++ [trimmed])%list |}
  else b.

(** [handleKeyDown]: Enter without Shift sends. *)
Definition handleKeyDown (key : string) (shiftKey : bool) (disabled : bool) (b : Bar) : Bar :=
  if String.eqb key "Enter" && negb shiftKey then handleSend disabled b else b.

(** The props and hook state the rendered controls depend on. *)
Record Env := { disabled : bool; isConnected : bool; isListening : bool }.

(** The [disabled] attribute of the send button and of the text input. *)
Definition sendButtonDisabled (e : Env) (b : Bar) : bool :=
  disabled e || is_empty (trim (input b)) || negb (isConnected e) || isListening e.

Definition inputDisabled (e : Env) : bool :=
  disabled e || negb (isConnected e) || isListening e.

(** A click on the send button ([onClick={handleSend}]); a disabled button
    dispatches no click. *)
Definition clickSend (e : Env) (b : Bar) : Bar :=
  if sendButtonDisabled e b then b else handleSend (disabled e) b.

(** A key pressed in the text input ([onKeyDown={handleKeyDown}]); a
    disabled input receives no key events. *)
Definition keyDown (key : string) (shiftKey : bool) (e : Env) (b : Bar) : Bar :=
  if inputDisabled e then b else handleKeyDown key shiftKey (disabled e) b.

Fixpoint all_ws (s : jsstring) : bool :=
  match s with
  | [] => true
  | c :: r => is_ws c && all_ws r
  end%list.

End InputBar.

(* ------------------------------------------------------------------ *)
(** * Front end: the useNemoSocket hook *)

Module Socket.

Definition RECONNECT_DELAY : nat := 3000.
Definition MAX_RECONNECT_ATTEMPTS : nat := 5.
Definition unable_msg : string := "Unable to connect to Nemo. Is the server running?".

(** The hook's state and refs: [reconnectAttemptsRef], [isConnected],
    [isConnecting], [error], whether [wsRef.current] is OPEN, whether a
    reconnect timeout is pending, and the delays of every [setTimeout]
    the hook has scheduled so far. *)
Record Sock := {
  attempts : nat;
  isConnected : bool;
  isConnecting : bool;
  error : option string;
  wsOpen : bool;
  pending : bool;
  scheduled : list nat }.

Definition initial : Sock :=
  {| attempts := 0; isConnected := false; isConnecting := true; error := None;
     wsOpen := false; pending := false; scheduled := [] |}.

(** Events delivered to the hook: the socket's open, close and error
    callbacks, and the reconnect timeout firing. *)
Inductive event := EOpen | EClose | EError | ETimer.

(** [connect]: return when already OPEN, otherwise set connecting, clear the
    error and create a new socket (not yet open). *)
Definition connect (s : Sock) : Sock :=
  if wsOpen s then s else
  {| attempts := attempts s; isConnected := isConnected s; isConnecting := true;
     error := None; wsOpen := false; pending := pending s; scheduled := scheduled s |}.

Definition onopen (s : Sock) : Sock :=
  {| attempts := 0; isConnected := true; isConnecting := false; error := None;
     wsOpen := true; pending := pending s; scheduled := scheduled s |}.

Definition onclose (s : Sock) : Sock :=
  if Nat.ltb (attempts s) MAX_RECONNECT_ATTEMPTS then
    {| attempts := S (attempts s); isConnected := false; isConnecting := false;
       error := error s; wsOpen := false; pending := true;
       scheduled := scheduled s ++ [RECONNECT_DELAY] |}
  else
    {| attempts := attempts s; isConnected := false; isConnecting := false;
       error := Some unable_msg; wsOpen := false; pending := pending s;
       scheduled := scheduled s |}.

Definition onerror (s : Sock) : Sock :=
  {| attempts := attempts s; isConnected := isConnected s; isConnecting := isConnecting s;
     error := Some "Connection error"; wsOpen := wsOpen s; pending := pending s;
     scheduled := scheduled s |}.

Definition onTimer (s : Sock) : Sock :=
  if pending s then
    connect {| attempts := attempts s; isConnected := isConnected s;
               isConnecting := isConnecting s; error := error s; wsOpen := wsOpen s;
               pending := false; scheduled := scheduled s |}
  else s.

Definition step (e : event) (s : Sock) : Sock :=
  match e with
  | EOpen => onopen s
  | EClose => onclose s
  | EError => onerror s
  | ETimer => onTimer s
  end.

Fixpoint run (es : list event) (s : Sock) : Sock :=
  match es with
  | [] => s
  | e :: es' => run es' (step e s)
  end.

Definition no_open (es : list event) : bool :=
  forallb (fun e => match e with EOpen => false | _ => true end) es.

End Socket.

(* ------------------------------------------------------------------ *)
(** * The Nemo websocket server (server.py, core/memory.py) *)

Module Server.

(** JSON values as exchanged over the websocket. *)
Inductive json :=
| JStr (s : string)
| JList (l : list json)
| JObj (fields : list (string * json)).

Fixpoint lookup (k : string) (fs : list (string * json)) : option json :=
  match fs with
  | [] => None
  | (k', v) :: fs' => if String.eqb k k' then Some v else lookup k fs'
  end.

(** A Python call either returns or raises an exception (its message). *)
Inductive outcome (A : Type) := Ok (a : A) | Raise (e : string).
Arguments Ok {A} a.
Arguments Raise {A} e.

Definition bind {A B} (m : outcome A) (f : A -> outcome B) : outcome B :=
  match m with Ok a => f a | Raise e => Raise e end.

Notation "x <- m ;; k" := (bind m (fun x => k)) (at level 61, m at next level, right associativity).

Definition nl : string := String (ascii_of_nat 10) EmptyString.
Definition indent : string := "            ".

(** ["\n".join(...)] *)
Fixpoint join (sep : string) (l : list string) : string :=
  match l with
  | [] => ""
  | [x] => x
  | x :: l' => x ++ sep ++ join sep l'
  end.

(** The f-string [system_prompt] of the endpoint, with its indentation. *)
Definition system_prompt (past_context : string) : string :=
  nl ++ indent ++ "You are Shanaya, a sassy and empathetic friend." ++ nl
     ++ indent ++ nl
     ++ indent ++ "RELEVANT MEMORIES (Use these to personalize the chat):" ++ nl
     ++ indent ++ past_context ++ nl
     ++ indent ++ nl
     ++ indent ++ "Keep responses short (under 2 sentences) and conversational." ++ nl
     ++ indent.

(** Observable effects of the endpoint coroutine, in program order. *)
Inductive effect :=
| ESend (resp : json)               (* await websocket.send_json(...) *)
| ECreateTask (user agent : string) (* asyncio.create_task(async_save_memory(...)) *)
| EPrint (msg : string).            (* print(f"Error: {e}") in the handler *)

Section Endpoint.

(** The external collaborators: Mem0's [search] (the 'memory' field of each
    hit), the LLM's [generate(user_text, system_prompt)] and Edge-TTS's
    [synthesize]; each may raise. *)
Variable search : string -> outcome (list string).
Variable generate : string -> string -> outcome string.
Variable synthesize : string -> outcome string.

(** [MemoryService.get_context]: no exception handling of its own. *)
Definition get_context (text : string) : outcome string :=
  ms <- search text ;; Ok (join nl ms).

(** [data['text']]: a missing key raises KeyError; a non-string value is
    refused by the string-only collaborators downstream. *)
Definition get_text (data : json) : outcome string :=
  match data with
  | JObj fs =>
      match lookup "text" fs with
      | Some (JStr s) => Ok s
      | Some _ => Raise "TypeError"
      | None => Raise "KeyError: 'text'"
      end
  | _ => Raise "TypeError"
  end.

(** The response object sent by [send_json]. *)
Definition response (audio_base64 response_text : string) : json :=
  JObj [("audio", JStr audio_base64); ("text", JStr response_text); ("visemes", JList [])].

(** One iteration of the [while True] body, up to the first exception. *)
Definition turn (data : json) : outcome (json * (string * string)) :=
  user_text <- get_text data ;;
  past_context <- get_context user_text ;;
  response_text <- generate user_text (system_prompt past_context) ;;
  audio_base64 <- synthesize response_text ;;
  Ok (response audio_base64 response_text, (user_text, response_text)).

(** [websocket_endpoint] over the sequence of received JSON messages: the
    whole loop sits in one [try]; an exception prints and leaves the loop. *)
Fixpoint endpoint (reqs : list json) : list effect :=
  match reqs with
  | [] => []
  | data :: rest =>
      match turn data with
      | Ok (resp, (u, a)) => ESend resp :: ECreateTask u a :: endpoint rest
      | Raise e => [EPrint ("Error: " ++ e)]
      end
  end.

End Endpoint.

(** Shapes of the produced interface named by the design: a request
    [{text, user_id?}] and a result [{final_text, streamed_deltas?, tool_trace?}]. *)
Definition only_fields (allowed : list string) (fs : list (string * json)) : bool :=
  forallb (fun kv => existsb (String.eqb (fst kv)) allowed) fs.

Definition is_str (v : option json) : bool :=
  match v with Some (JStr _) => true | _ => false end.

Definition request_shape (j : json) : bool :=
  match j with
  | JObj fs => only_fields ["text"; "user_id"] fs && is_str (lookup "text" fs)
  | _ => false
  end.

Definition result_shape (j : json) : bool :=
  match j with
  | JObj fs => only_fields ["final_text"; "streamed_deltas"; "tool_trace"] fs
               && is_str (lookup "final_text" fs)
  | _ => false
  end.

(** The shape both ends actually use: [NemoResponse] of useNemoSocket
    ({text, audio, visemes, error?}). *)
Definition nemo_response_shape (j : json) : bool :=
  match j with
  | JObj fs => only_fields ["text"; "audio"; "visemes"; "error"] fs
               && is_str (lookup "text" fs) && is_str (lookup "audio" fs)
               && (match lookup "visemes" fs with Some (JList _) => true | _ => false end)
  | _ => false
  end.

(** [sendMessage] of useNemoSocket: [JSON.stringify({ text })]. *)
Definition client_request (text : string) : json := JObj [("text", JStr text)].

(** The JSON.parse of a server response into a [NemoResponse] as App sees it. *)
Definition to_nemo_response (j : json) : option App.NemoResponse :=
  match j with
  | JObj fs =>
      match lookup "text" fs, lookup "audio" fs with
      | Some (JStr t), Some (JStr a) =>
          Some {| App.r_text := t; App.r_audio := a; App.r_visemes := [];
                  App.r_error := match lookup "error" fs with
                                 | Some (JStr e) => Some e | _ => None end |}
      | _, _ => None
      end
  | _ => None
  end.

End Server.

(* ------------------------------------------------------------------ *)
(** * The event loop running the endpoint and its background saves *)

Module Background.
Import Server.

(** What an observer of the process sees: responses written to the socket,
    [save_interaction] calls (with whether the Mem0 add returned or raised;
    a raise stays inside the never-awaited task), and prints. *)
Inductive obs :=
| OSent (resp : json)
| OSaved (user agent : string) (succeeded : bool)
| OPrinted (msg : string).

(** The first print of [async_save_memory] (its emoji prefix left out). *)
Definition saving_msg : string := "Saving memory in background...".

(** The endpoint coroutine's remaining effects, asyncio's FIFO ready queue
    of created [async_save_memory] tasks, the task the loop is running (if
    any), and the trace so far. *)
Record config := {
  remaining : list effect;
  queue : list (string * string);
  running : option (string * string);
  trace : list obs }.

(** One scheduling step of the single-threaded event loop. While no task
    is running, the endpoint coroutine may be resumed or the loop may start
    the oldest ready task; letting it start one between any two endpoint
    effects over-approximates the await points of the coroutine. A started
    task occupies the loop: [async_save_memory] has no [await] and
    [save_interaction] makes the synchronous Mem0 [add] call, so nothing
    else runs until it returns or raises. *)
Inductive step : config -> config -> Prop :=
| step_send : forall r rest q t,
    step {| remaining := ESend r :: rest; queue := q; running := None; trace := t |}
         {| remaining := rest; queue := q; running := None; trace := t ++ [OSent r] |}
| step_create : forall u a rest q t,
    step {| remaining := ECreateTask u a :: rest; queue := q; running := None; trace := t |}
         {| remaining := rest; queue := q ++ [(u, a)]; running := None; trace := t |}
| step_print : forall m rest q t,
    step {| remaining := EPrint m :: rest; queue := q; running := None; trace := t |}
         {| remaining := rest; queue := q; running := None; trace := t ++ [OPrinted m] |}
| step_start : forall u a rest q t,
    step {| remaining := rest; queue := (u, a) :: q; running := None; trace := t |}
         {| remaining := rest; queue := q; running := Some (u, a);
            trace := t ++ [OPrinted saving_msg] |}
| step_finish : forall u a ok rest q t,
    step {| remaining := rest; queue := q; running := Some (u, a); trace := t |}
         {| remaining := rest; queue := q; running := None; trace := t ++ [OSaved u a ok] |}.

Inductive reach (E : list effect) : config -> Prop :=
| reach_init : reach E {| remaining := E; queue := []; running := None; trace := [] |}
| reach_step : forall c c', reach E c -> step c c' -> reach E c'.

(** The task being run, as a list. *)
Definition in_flight (c : config) : list (string * string) :=
  match running c with Some p => [p] | None => [] end.

Fixpoint sends_of (E : list effect) : list json :=
  match E with
  | [] => []
  | ESend r :: E' => r :: sends_of E'
  | _ :: E' => sends_of E'
  end.

Fixpoint tasks_of (E : list effect) : list (string * string) :=
  match E with
  | [] => []
  | ECreateTask u a :: E' => (u, a) :: tasks_of E'
  | _ :: E' => tasks_of E'
  end.

Fixpoint sent_in (t : list obs) : list json :=
  match t with
  | [] => []
  | OSent r :: t' => r :: sent_in t'
  | _ :: t' => sent_in t'
  end.

Fixpoint saved_in (t : list obs) : list (string * string) :=
  match t with
  | [] => []
  | OSaved u a _ :: t' => (u, a) :: saved_in t'
  | _ :: t' => saved_in t'
  end.

Definition prefix {A} (l L : list A) : Prop := exists s, (l ++ s)%list = L.

End Background.

(* ------------------------------------------------------------------ *)
(** * Agent core: messages and the ContextWindow *)

Module Core.

Inductive mrole := RSystem | RUser | RAssistant | RTool.

Record ToolInvocation := { inv_id : string; inv_name : string }.

(** [Message] of the data model (the timestamp is irrelevant here). *)
Record Msg := {
  role : mrole;
  content : string;
  tool_calls : list ToolInvocation;
  tool_call_id : option string }.

Definition is_system (m : Msg) : bool :=
  match role m with RSystem => true | _ => false end.

Definition msg (r : mrole) (c : string) : Msg :=
  {| role := r; content := c; tool_calls := []; tool_call_id := None |}.

End Core.

Module ContextWindow.
Import Core.

Section Window.

(** The injectable cost function and the configured budget. *)
Variable cost : Msg -> nat.
Variable budget : nat.

Fixpoint total (h : list Msg) : nat :=
  match h with [] => 0 | m :: h' => cost m + total h' end.

Definition count_nonsys (h : list Msg) : nat :=
  length (filter (fun m => negb (is_system m)) h).

(** Remove the oldest non-system message. *)
Fixpoint evict_oldest (h : list Msg) : list Msg :=
  match h with
  | [] => []
  | m :: h' => if is_system m then m :: evict_oldest h' else h'
  end.

(** Whether an eviction is still allowed: some non-system message would
    remain, or the only one left costs no more than the budget (a single
    message whose own cost exceeds the budget is retained). *)
Definition evictable (h : list Msg) : bool :=
  match filter (fun m => negb (is_system m)) h with
  | [] => false
  | [x] => Nat.leb (cost x) budget
  | _ => true
  end.

(** Evict oldest-first while over budget and an eviction is allowed. *)
Fixpoint enforce (fuel : nat) (h : list Msg) : list Msg :=
  match fuel with
  | 0 => h
  | S f =>
      if Nat.ltb budget (total h) && evictable h
      then enforce f (evict_oldest h)
      else h
  end.

(** Modelled from the spec: [ContextWindow.append] (the sliding window of
    the agent loop, main.py, is not among the sources). It appends, then
    evicts the oldest non-system messages in insertion order while the
    cumulative cost exceeds the budget; system messages are never evicted,
    and a single remaining non-system message whose own cost exceeds the
    budget is retained. *)
Definition append (m : Msg) (h : list Msg) : list Msg :=
  let h' := (h ++ [m])%list in enforce (length h') h'.

End Window.

(** The non-system and the system messages of a history, in order. *)
Definition nonsys (h : list Msg) : list Msg := filter (fun m => negb (is_system m)) h.
Definition sys (h : list Msg) : list Msg := filter is_system h.

(** The first [k] evictions of the oldest non-system message. *)
Fixpoint drop_nonsys (k : nat) (h : list Msg) : list Msg :=
  match k with 0 => h | S k' => drop_nonsys k' (evict_oldest h) end.

End ContextWindow.

(* ------------------------------------------------------------------ *)
(** * Agent core: the tool-call round loop of AgentLoop *)

Module AgentLoop.
Import Core.

(** A response of the LLM capability: a plain-text answer or tool calls. *)
Inductive LLMResponse :=
| PlainText (t : string)
| ToolCalls (calls : list ToolInvocation).

Inductive phase :=
| CallingLLM
| Finalized (answer : string)
| Degraded (answer : string).   (* ToolLoopExceeded *)

Record Turn := {
  history : list Msg;
  round_count : nat;
  llm_calls : nat;
  phase_of : phase }.

Definition degraded_answer : string :=
  "I stopped because the tool-call round limit was reached.".

Section Loop.

(** The configured maximum round count; the LLM capability (a function of
    the snapshot it is sent); the ToolRegistry's dispatch producing the
    [tool] message of each invocation; and the ContextWindow's append. *)
Variable max_rounds : nat.
Variable chat : list Msg -> LLMResponse.
Variable run_tool : ToolInvocation -> Msg.
Variable push : Msg -> list Msg -> list Msg.

Fixpoint push_all (ms : list Msg) (h : list Msg) : list Msg :=
  match ms with [] => h | m :: ms' => push_all ms' (push m h) end.

(** Modelled from the spec: one CallingLLM step of AgentLoop (main.py is
    not among the sources). A plain-text response finalizes; tool calls
    append the assistant message and one tool message per invocation in
    invocation order, increment [round_count], and abort with a degraded
    answer once [round_count] exceeds [max_rounds]. Terminal phases stay. *)
Definition step (s : Turn) : Turn :=
  match phase_of s with
  | CallingLLM =>
      match chat (history s) with
      | PlainText t =>
          {| history := push (msg RAssistant t) (history s);
             round_count := round_count s; llm_calls := S (llm_calls s);
             phase_of := Finalized t |}
      | ToolCalls cs =>
          let h1 := push {| role := RAssistant; content := ""; tool_calls := cs;
                            tool_call_id := None |} (history s) in
          let h2 := push_all (map run_tool cs) h1 in
          let rc := S (round_count s) in
          {| history := h2; round_count := rc; llm_calls := S (llm_calls s);
             phase_of := if Nat.ltb max_rounds rc then Degraded degraded_answer
                         else CallingLLM |}
      end
  | _ => s
  end.

Fixpoint run (n : nat) (s : Turn) : Turn :=
  match n with 0 => s | S n' => run n' (step s) end.

(** The invariant of a turn: while calling the LLM, one round per call so
    far and not beyond the maximum; a degraded turn stopped right after
    round [max_rounds + 1]; a finalized turn used at most that many calls. *)
Definition Inv (s : Turn) : Prop :=
  (phase_of s = CallingLLM /\ round_count s = llm_calls s /\ round_count s <= max_rounds)
  \/ (exists t, phase_of s = Finalized t /\ llm_calls s <= S max_rounds
                /\ round_count s <= max_rounds)
  \/ (phase_of s = Degraded degraded_answer /\ round_count s = S max_rounds
      /\ llm_calls s = S max_rounds).

End Loop.

(** A turn starts with [round_count] reset to zero. *)
Definition start (h : list Msg) : Turn :=
  {| history := h; round_count := 0; llm_calls := 0; phase_of := CallingLLM |}.

Definition terminal (s : Turn) : bool :=
  match phase_of s with CallingLLM => false | _ => true end.

End AgentLoop.

(* ------------------------------------------------------------------ *)
(** * Agent core: the ToolRegistry *)

Module ToolRegistry.

Inductive param_type := PString | PInteger | PBoolean.

Inductive value := VStr (s : string) | VInt (n : nat) | VBool (b : bool) | VNull.

(** [ToolParameter]: name, type, required. *)
Record ToolParameter := { pname : string; ptype : param_type; required : bool }.

Definition args := list (string * value).

(** What a tool's function does when called: return an output or raise
    (file not found, network timeout, ...). *)
Inductive exec_outcome := Returned (out : string) | Raised (msg : string).

Record Tool := {
  tname : string;
  parameters : list ToolParameter;
  executor : args -> exec_outcome }.

Inductive error_kind := UnknownTool | InvalidArguments | ToolExecutionError.

(** [ToolResult]: the invocation id, and an output or an error. *)
Record ToolResult := {
  tr_id : string;
  output : option string;
  error : option (error_kind * string) }.

Fixpoint lookup_arg (k : string) (a : args) : option value :=
  match a with
  | [] => None
  | (k', v) :: a' => if String.eqb k k' then Some v else lookup_arg k a'
  end.

Fixpoint find_tool (name : string) (reg : list Tool) : option Tool :=
  match reg with
  | [] => None
  | t :: reg' => if String.eqb name (tname t) then Some t else find_tool name reg'
  end.

Definition is_digit (c : ascii) : bool :=
  Nat.leb 48 (nat_of_ascii c) && Nat.leb (nat_of_ascii c) 57.

Fixpoint all_digits (s : string) : bool :=
  match s with EmptyString => true | String c r => is_digit c && all_digits r end.

(** Modelled from the spec: "types coercible". A string parameter takes
    any scalar, an integer takes an integer or a decimal numeral string, a
    boolean takes a boolean or the strings "true"/"false"; null never fits. *)
Definition coercible (t : param_type) (v : value) : bool :=
  match t, v with
  | PString, (VStr _ | VInt _ | VBool _) => true
  | PInteger, VInt _ => true
  | PInteger, VStr s => negb (String.eqb s "") && all_digits s
  | PBoolean, VBool _ => true
  | PBoolean, VStr s => String.eqb s "true" || String.eqb s "false"
  | _, _ => false
  end.

(** Required parameters present, every supplied declared parameter coercible. *)
Definition validate (ps : list ToolParameter) (a : args) : bool :=
  forallb (fun p => match lookup_arg (pname p) a with
                    | None => negb (required p)
                    | Some v => coercible (ptype p) v
                    end) ps.

(** Modelled from the spec: [ToolRegistry.execute] (tools.py is not among
    the sources). Unknown names and invalid arguments become error results;
    otherwise the executor runs and a raise is captured as an error. *)
Definition execute (reg : list Tool) (call_id name : string) (a : args) : ToolResult :=
  match find_tool name reg with
  | None => {| tr_id := call_id; output := None;
               error := Some (UnknownTool, "Unknown tool: " ++ name) |}
  | Some t =>
      if validate (parameters t) a then
        match executor t a with
        | Returned o => {| tr_id := call_id; output := Some o; error := None |}
        | Raised e => {| tr_id := call_id; output := None;
                         error := Some (ToolExecutionError, e) |}
        end
      else {| tr_id := call_id; output := None;
              error := Some (InvalidArguments, "Invalid arguments for " ++ name) |}
  end.

(** Modelled from the spec: [register] refuses a duplicate name. *)
Definition register (t : Tool) (reg : list Tool) : option (list Tool) :=
  match find_tool (tname t) reg with
  | Some _ => None            (* DuplicateTool *)
  | None => Some (reg ++ [t])%list
  end.

Definition error_kind_of (r : ToolResult) : option error_kind := option_map fst (error r).

Definition exactly_one (r : ToolResult) : bool :=
  match output r, error r with
  | Some _, None | None, Some _ => true
  | _, _ => false
  end.

End ToolRegistry.

(* ------------------------------------------------------------------ *)
(** * Front end: the useSpeechRecognition hook *)

Module Speech.

(** A [SpeechRecognitionResult]: whether it is final and its alternatives'
    transcripts. *)
Record SRResult := { isFinal : bool; alts : list string }.

(** The body of the [for] loop of [onresult], from index [i] for [n]
    iterations; [result[0].transcript] throws when a result has no
    alternative, which aborts the handler ([None]). *)
Fixpoint result_loop (results : list SRResult) (i n : nat) (fin interim : string)
  : option (string * string) :=
  match n with
  | 0 => Some (fin, interim)
  | S n' =>
      match nth_error results i with
      | None => Some (fin, interim)
      | Some r =>
          match alts r with
          | [] => None
          | a :: _ =>
              if isFinal r then result_loop results (S i) n' (fin ++ a) interim
              else result_loop results (S i) n' fin (interim ++ a)
          end
      end
  end.

(** [onresult]: loop from [event.resultIndex] to [event.results.length],
    then [finalTranscript || interimTranscript]. *)
Definition onresult (resultIndex : nat) (results : list SRResult) : option string :=
  match result_loop results resultIndex (length results - resultIndex) "" "" with
  | None => None
  | Some (fin, interim) => Some (if String.eqb fin "" then interim else fin)
  end.

(** The hook's state: [isListening], [transcript], [error], whether
    [recognitionRef.current] is set, and the calls made on the recognizer. *)
Inductive rec_call := CallStart | CallStop.

Record SpeechState := {
  isListening : bool;
  transcript : string;
  serror : option string;
  hasRecognition : bool;
  calls : list rec_call }.

(** [startListening]; [throws] says whether [recognition.start()] throws. *)
Definition startListening (throws : bool) (s : SpeechState) : SpeechState :=
  if negb (hasRecognition s) || isListening s then s else
  {| isListening := isListening s; transcript := "";
     serror := if throws then Some "Failed to start speech recognition" else None;
     hasRecognition := hasRecognition s; calls := calls s ++ [CallStart] |}.

(** [stopListening]; a throwing [stop()] is only logged. *)
Definition stopListening (s : SpeechState) : SpeechState :=
  if negb (hasRecognition s) || negb (isListening s) then s else
  {| isListening := isListening s; transcript := transcript s; serror := serror s;
     hasRecognition := hasRecognition s; calls := calls s ++ [CallStop] |}.

Definition onstart (s : SpeechState) : SpeechState :=
  {| isListening := true; transcript := transcript s; serror := None;
     hasRecognition := hasRecognition s; calls := calls s |}.

Definition onend (s : SpeechState) : SpeechState :=
  {| isListening := false; transcript := transcript s; serror := serror s;
     hasRecognition := hasRecognition s; calls := calls s |}.

Definition onerror (e : string) (s : SpeechState) : SpeechState :=
  {| isListening := false; transcript := transcript s; serror := Some e;
     hasRecognition := hasRecognition s; calls := calls s |}.

(** [onresult] as a state update: a throwing handler changes nothing. *)
Definition onresult_state (resultIndex : nat) (results : list SRResult) (s : SpeechState)
  : SpeechState :=
  match onresult resultIndex results with
  | None => s
  | Some t => {| isListening := isListening s; transcript := t; serror := serror s;
                 hasRecognition := hasRecognition s; calls := calls s |}
  end.

(** Calls of the hook's API and callbacks of the recognizer. *)
Inductive sevent :=
| SStart (throws : bool)
| SStop
| SOnStart
| SOnEnd
| SOnError (e : string)
| SOnResult (resultIndex : nat) (results : list SRResult).

Definition sstep (e : sevent) (s : SpeechState) : SpeechState :=
  match e with
  | SStart th => startListening th s
  | SStop => stopListening s
  | SOnStart => onstart s
  | SOnEnd => onend s
  | SOnError m => onerror m s
  | SOnResult i rs => onresult_state i rs s
  end.

Fixpoint srun (es : list sevent) (s : SpeechState) : SpeechState :=
  match es with
  | [] => s
  | e :: es' => srun es' (sstep e s)
  end.

End Speech.

(* ------------------------------------------------------------------ *)
(** * Front end: the rest of useNemoSocket and App *)

Module SocketMore.
Import Socket.

(** [sendMessage]: refused with an error unless the socket is OPEN;
    otherwise [JSON.stringify({ text })] is written to the socket. *)
Definition sendMessage (text : string) (s : Sock) : Sock * list Server.json :=
  if negb (wsOpen s) then
    ({| attempts := attempts s; isConnected := isConnected s;
        isConnecting := isConnecting s; error := Some "Not connected to Nemo";
        wsOpen := wsOpen s; pending := pending s; scheduled := scheduled s |}, [])
  else (s, [Server.client_request text]).

(** The cleanup of the mount effect: [clearTimeout] of the pending
    reconnect; the [ws.close()] it calls is delivered later as a close
    event to the still attached [onclose]. *)
Definition cleanup (s : Sock) : Sock :=
  {| attempts := attempts s; isConnected := isConnected s; isConnecting := isConnecting s;
     error := error s; wsOpen := wsOpen s; pending := false; scheduled := scheduled s |}.

End SocketMore.

Module AppMore.
Import App.

Definition opt_str_eqb (a b : option string) : bool :=
  match a, b with
  | Some x, Some y => String.eqb x y
  | None, None => true
  | _, _ => false
  end.

(** The [useEffect] on [error] of App: it runs only when [error] changed
    (React compares the dependency with the previous render's), and a
    non-null error clears typing. *)
Definition onError (prev err : option string) (s : AppState) : AppState :=
  if opt_str_eqb prev err then s else
  match err with
  | Some _ => {| messages := messages s; processedResponseRef := processedResponseRef s;
                 isTyping := false; played := played s; sent := sent s |}
  | None => s
  end.

(** App's [handleSend] wired to useNemoSocket's [sendMessage], followed by
    the error effect; returns App's state, the hook's state and the frames
    written to the socket. *)
Definition send (text : string) (a : AppState) (k : Socket.Sock)
  : AppState * Socket.Sock * list Server.json :=
  let a1 := handleSend text a in
  let (k1, out) := SocketMore.sendMessage text k in
  (onError (Socket.error k) (Socket.error k1) a1, k1, out).

End AppMore.

(* ------------------------------------------------------------------ *)
(** * Front end: the useAudioPlayer hook *)

Module AudioPlayer.

(** [audioLevel]: 0, or [sum / length / 255] of the analyser's byte
    frequency data, kept as its sum and length. *)
Inductive level := LZero | LAvg (sum len : nat).

(** The hook's state and refs: [isPlaying], [audioLevel], the audio of
    [audioRef.current], the audios paused so far, whether [analyserRef] is
    set, whether an animation frame is pending, and the [isPlaying] seen by
    the [analyzeAudio] that the current audio's [onplay] will call. *)
Record Player := {
  isPlaying : bool;
  audioLevel : level;
  current : option string;
  paused : list string;
  hasAnalyser : bool;
  framePending : bool;
  onplayAnalyzeSees : bool }.

(** [analyzeAudio] as created in a render where [isPlaying] was [seen]. *)
Definition analyzeAudio (seen : bool) (data : list nat) (s : Player) : Player :=
  if negb (hasAnalyser s) || negb seen then
    {| isPlaying := isPlaying s; audioLevel := LZero; current := current s; paused := paused s;
       hasAnalyser := hasAnalyser s; framePending := framePending s;
       onplayAnalyzeSees := onplayAnalyzeSees s |}
  else
    {| isPlaying := isPlaying s; audioLevel := LAvg (fold_left Nat.add data 0) (length data);
       current := current s; paused := paused s; hasAnalyser := hasAnalyser s;
       framePending := true; onplayAnalyzeSees := onplayAnalyzeSees s |}.

(** [playAudio] as created in a render where [isPlaying] was [seen], along
    its path without exception: an empty argument returns at once;
    otherwise the current audio is paused and replaced, the analyser set,
    and the new audio's [onplay] bound to that render's [analyzeAudio]. *)
Definition playAudio (seen : bool) (base64Audio : string) (s : Player) : Player :=
  if String.eqb base64Audio "" then s else
  {| isPlaying := isPlaying s; audioLevel := audioLevel s; current := Some base64Audio;
     paused := paused s ++ (match current s with Some a => [a] | None => [] end);
     hasAnalyser := true; framePending := framePending s; onplayAnalyzeSees := seen |}.

(** [audio.onplay]. *)
Definition onplay (data : list nat) (s : Player) : Player :=
  analyzeAudio (onplayAnalyzeSees s) data
    {| isPlaying := true; audioLevel := audioLevel s; current := current s; paused := paused s;
       hasAnalyser := hasAnalyser s; framePending := framePending s;
       onplayAnalyzeSees := onplayAnalyzeSees s |}.

End AudioPlayer.

(* ------------------------------------------------------------------ *)
(** * Observation helpers *)

Module Observe.

(** Splitting a string at line feeds (used to read the memory context
    back line by line). *)
Fixpoint lines_acc (s : string) (cur : string) : list string :=
  match s with
  | EmptyString => [cur]
  | String c r =>
      if Ascii.eqb c (ascii_of_nat 10) then cur :: lines_acc r ""
      else lines_acc r (cur ++ String c EmptyString)
  end.

Definition lines (s : string) : list string := lines_acc s "".

Fixpoint has_nl (s : string) : bool :=
  match s with
  | EmptyString => false
  | String c r => Ascii.eqb c (ascii_of_nat 10) || has_nl r
  end.

(** The transcripts of the final ([fin = true]) or interim results. *)
Fixpoint pick (fin : bool) (rs : list Speech.SRResult) : string :=
  match rs with
  | [] => ""
  | r :: rs' =>
      match Speech.alts r with
      | [] => ""
      | a :: _ => if Bool.eqb (Speech.isFinal r) fin then a ++ pick fin rs' else pick fin rs'
      end
  end.

Definition no_alt (r : Speech.SRResult) : bool :=
  match Speech.alts r with [] => true | _ => false end.

Definition ends_session (e : Speech.sevent) : bool :=
  match e with Speech.SOnEnd | Speech.SOnError _ => true | _ => false end.



End Observe.

(* ================================================================== *)
(** * Theorems *)

Open Scope list_scope.

(* ------------------------------------------------------------------ *)
(** ** App: processing of backend responses *)

Module AppFacts.
Import App.

Lemma truthy_false (s : string) : truthy s = false <-> s = "".
Proof.
  unfold truthy. rewrite negb_false_iff. apply String.eqb_eq.
Qed.

Lemma truthy_true (s : string) : truthy s = true <-> s <> "".
Proof.
  unfold truthy. rewrite negb_true_iff. apply String.eqb_neq.
Qed.

Lemma onResponses_ref (rs : list NemoResponse) : forall s,
  processedResponseRef (onResponses rs s) = last_nonempty rs (processedResponseRef s).
Proof.
  induction rs as [|r rs IH]; intro s; [reflexivity|].
  simpl. rewrite IH. f_equal.
  unfold onResponse. destruct (truthy (r_text r)) eqn:Ht; [|reflexivity].
  destruct (processedResponseRef s) as [p|] eqn:Hp; simpl; [|reflexivity].
  destruct (String.eqb p (r_text r)) eqn:He; [|reflexivity].
  apply String.eqb_eq in He. subst. simpl. congruence.
Qed.

(** C8: For a response whose text is empty or equals the text recorded in
    [processedResponseRef] (the last non-empty text processed), App leaves
    its whole state unchanged: no message, no audio. Otherwise it appends
    exactly one Nemo message with that text, plays the audio when there is
    some, and records the text. The recorded text after a run is the last
    non-empty text of the run, so a second consecutive response carrying
    the same text adds no transcript entry. *)
Theorem app_onResponse_dedup :
  (forall (r : NemoResponse) (s : AppState),
     (r_text r = "" \/ processedResponseRef s = Some (r_text r)) ->
     onResponse r s = s) /\
  (forall (r : NemoResponse) (s : AppState),
     r_text r <> "" -> processedResponseRef s <> Some (r_text r) ->
     messages (onResponse r s) = messages s ++ [{| m_role := RNemo; m_content := r_text r |}]
     /\ played (onResponse r s) = played s ++ (if truthy (r_audio r) then [r_audio r] else [])
     /\ processedResponseRef (onResponse r s) = Some (r_text r)) /\
  (forall rs s, processedResponseRef (onResponses rs s)
                = last_nonempty rs (processedResponseRef s)) /\
  (forall r1 r2 s, r_text r1 = r_text r2 ->
     messages (onResponse r2 (onResponse r1 s)) = messages (onResponse r1 s)).
Proof.
  split; [|split; [|split]].
  - intros r s [He | Hp]; unfold onResponse.
    + rewrite He. reflexivity.
    + rewrite Hp, String.eqb_refl.
      destruct (truthy (r_text r)); reflexivity.
  - intros r s Hne Hp. unfold onResponse.
    assert (Ht : truthy (r_text r) = true) by (apply truthy_true; exact Hne).
    rewrite Ht.
    assert (Hm : (match processedResponseRef s with
                  | Some p => String.eqb p (r_text r) | None => false end) = false).
    { destruct (processedResponseRef s) as [p|]; [|reflexivity].
      apply String.eqb_neq. intro E. apply Hp. subst. reflexivity. }
    rewrite Hm. simpl. split; [reflexivity|split; [|reflexivity]].
    destruct (truthy (r_audio r)); [reflexivity|].
    rewrite app_nil_r. reflexivity.
  - intros rs s. apply onResponses_ref.
  - intros r1 r2 s Heq. unfold onResponse. rewrite <- Heq.
    destruct (truthy (r_text r1)) eqn:Ht; [|reflexivity].
    destruct (match processedResponseRef s with
              | Some p => String.eqb p (r_text r1) | None => false end) eqn:Hm.
    + rewrite ?Ht, ?Hm. reflexivity.
    + simpl. rewrite ?Ht, String.eqb_refl. reflexivity.
Qed.

Lemma app_onResponse_dedup_witness :
  let r := {| r_text := "hi"; r_audio := "QUJD"; r_visemes := []; r_error := None |} in
  let s := {| messages := []; processedResponseRef := Some "hi"; isTyping := true;
              played := []; sent := ["hello"] |} in
  onResponse r s = s /\
  messages (onResponse r initial) = [{| m_role := RNemo; m_content := "hi" |}].
Proof.
  split.
  - apply (proj1 app_onResponse_dedup). right. reflexivity.
  - apply (proj1 (proj2 app_onResponse_dedup)); simpl; discriminate.
Defined.

End AppFacts.


(* ------------------------------------------------------------------ *)
(** ** InputBar: sending *)

Module InputBarFacts.
Import InputBar.

Lemma ltrim_all_ws (s : jsstring) : all_ws s = true -> ltrim s = [].
Proof.
  induction s as [|c r IH]; simpl; [reflexivity|].
  intro H. apply andb_prop in H as [Hc Hr]. rewrite Hc. apply IH, Hr.
Qed.

Lemma trim_all_ws (s : jsstring) : all_ws s = true -> trim s = [].
Proof. intro H. unfold trim. rewrite (ltrim_all_ws s H). reflexivity. Qed.

(** C9 as stated, refuted: while the socket is disconnected the send
    button is disabled, so a click on a non-empty input of a bar whose
    [disabled] prop is false sends nothing. *)
Lemma inputbar_send_needs_connection :
  ~ (forall e b, is_empty (trim (input b)) = false -> disabled e = false ->
       onSendCalls (clickSend e b) = onSendCalls b ++ [trim (input b)]).
Proof.
  intro H.
  specialize (H {| disabled := false; isConnected := false; isListening := false |}
                {| input := [104; 105]%N; onSendCalls := [] |} eq_refl eq_refl).
  vm_compute in H. discriminate.
Qed.

(** C9 (amended): a click on the send button, or Enter without Shift in
    the text input, calls [onSend] exactly when the input trimmed by
    String.prototype.trim (Unicode white space such as U+00A0 included) is
    non-empty, the [disabled] prop is false, the socket is connected and
    speech recognition is not listening; it then passes the trimmed text
    and resets the input to the empty string, and otherwise leaves the bar
    as it was. Other keys do nothing, and [handleSend], whoever calls it,
    never sends an input made only of white space. *)
Theorem inputbar_handleSend_spec :
  (forall e b,
     clickSend e b =
     if negb (is_empty (trim (input b))) && negb (disabled e) && isConnected e
        && negb (isListening e)
     then {| input := []; onSendCalls := onSendCalls b ++ [trim (input b)] |} else b) /\
  (forall e b,
     keyDown "Enter" false e b =
     if negb (is_empty (trim (input b))) && negb (disabled e) && isConnected e
        && negb (isListening e)
     then {| input := []; onSendCalls := onSendCalls b ++ [trim (input b)] |} else b) /\
  (forall key shiftKey e b,
     (String.eqb key "Enter" && negb shiftKey) = false -> keyDown key shiftKey e b = b) /\
  (forall d b, all_ws (input b) = true -> handleSend d b = b).
Proof.
  split; [|split; [|split]].
  - intros e b. unfold clickSend, sendButtonDisabled, handleSend. cbv zeta.
    destruct (is_empty (trim (input b))), (disabled e), (isConnected e), (isListening e);
      reflexivity.
  - intros e b. unfold keyDown, inputDisabled, handleKeyDown, handleSend. cbv zeta. simpl.
    destruct (is_empty (trim (input b))), (disabled e), (isConnected e), (isListening e);
      reflexivity.
  - intros key shiftKey e b H. unfold keyDown, handleKeyDown. rewrite H.
    destruct (inputDisabled e); reflexivity.
  - intros d b H. unfold handleSend. rewrite (trim_all_ws _ H). reflexivity.
Qed.

End InputBarFacts.

Lemma inputbar_handleSend_spec_witness :
  InputBar.clickSend
    {| InputBar.disabled := false; InputBar.isConnected := true; InputBar.isListening := false |}
    {| InputBar.input := [160; 104; 105; 160]%N; InputBar.onSendCalls := [] |}
  = {| InputBar.input := []; InputBar.onSendCalls := [[104; 105]%N] |} /\
  InputBar.keyDown "Enter" true
    {| InputBar.disabled := false; InputBar.isConnected := true; InputBar.isListening := false |}
    {| InputBar.input := [104; 105]%N; InputBar.onSendCalls := [] |}
  = {| InputBar.input := [104; 105]%N; InputBar.onSendCalls := [] |} /\
  InputBar.handleSend false {| InputBar.input := [160; 32; 12288]%N; InputBar.onSendCalls := [] |}
  = {| InputBar.input := [160; 32; 12288]%N; InputBar.onSendCalls := [] |}.
Proof.
  split; [|split].
  - rewrite (proj1 InputBarFacts.inputbar_handleSend_spec). vm_compute. reflexivity.
  - apply (proj1 (proj2 (proj2 InputBarFacts.inputbar_handleSend_spec))). reflexivity.
  - apply (proj2 (proj2 (proj2 InputBarFacts.inputbar_handleSend_spec))). vm_compute. reflexivity.
Defined.

(* ------------------------------------------------------------------ *)
(** ** useNemoSocket: reconnection *)

Module SocketFacts.
Import Socket.

Local Ltac slia := unfold MAX_RECONNECT_ATTEMPTS, RECONNECT_DELAY in *; lia.

Lemma run_app (es1 es2 : list event) (s : Sock) : run (es1 ++ es2) s = run es2 (run es1 s).
Proof. revert s. induction es1; simpl; auto. Qed.

(** Without an intervening open, each step either leaves the counter and
    the schedule alone or schedules one reconnect and bumps the counter. *)
Lemma step_no_open (e : event) (s : Sock) :
  e <> EOpen -> attempts s <= MAX_RECONNECT_ATTEMPTS ->
  attempts s <= attempts (step e s) <= MAX_RECONNECT_ATTEMPTS /\
  length (scheduled (step e s)) = length (scheduled s) + (attempts (step e s) - attempts s).
Proof.
  intros Hne Hle. unfold MAX_RECONNECT_ATTEMPTS in *. destruct e; [congruence| | |].
  - simpl. unfold onclose. destruct (Nat.ltb (attempts s) MAX_RECONNECT_ATTEMPTS) eqn:Hl.
    + apply Nat.ltb_lt in Hl. cbn -[Nat.sub]. rewrite length_app. cbn -[Nat.sub]. slia.
    + simpl. slia.
  - simpl. slia.
  - simpl. unfold onTimer. destruct (pending s); [|slia].
    unfold connect. simpl. destruct (wsOpen s); simpl; slia.
Qed.

Lemma run_no_open (es : list event) : forall s,
  no_open es = true -> attempts s <= MAX_RECONNECT_ATTEMPTS ->
  attempts s <= attempts (run es s) <= MAX_RECONNECT_ATTEMPTS /\
  length (scheduled (run es s)) = length (scheduled s) + (attempts (run es s) - attempts s).
Proof.
  induction es as [|e es IH]; intros s Hno Hle; simpl; [slia|].
  simpl in Hno. apply andb_prop in Hno as [He Hes].
  assert (Hne : e <> EOpen) by (destruct e; discriminate || (simpl in He; discriminate)).
  destruct (step_no_open e s Hne Hle) as [[H1 H2] H3].
  destruct (IH (step e s) Hes H2) as [[H4 H5] H6]. slia.
Qed.

Lemma step_attempts_le (e : event) (s : Sock) :
  attempts s <= MAX_RECONNECT_ATTEMPTS -> attempts (step e s) <= MAX_RECONNECT_ATTEMPTS.
Proof.
  intro H. destruct e; simpl; [unfold onopen; simpl; slia| | |].
  - unfold onclose. destruct (Nat.ltb (attempts s) MAX_RECONNECT_ATTEMPTS) eqn:Hl; simpl;
      [apply Nat.ltb_lt in Hl; slia | slia].
  - exact H.
  - unfold onTimer. destruct (pending s); [|exact H].
    unfold connect. simpl. destruct (wsOpen s); exact H.
Qed.

Lemma step_delays (e : event) (s : Sock) :
  Forall (fun d => d = RECONNECT_DELAY) (scheduled s) ->
  Forall (fun d => d = RECONNECT_DELAY) (scheduled (step e s)).
Proof.
  intro H. destruct e; simpl; [exact H| | exact H |].
  - unfold onclose. destruct (Nat.ltb (attempts s) MAX_RECONNECT_ATTEMPTS); simpl; [|exact H].
    apply Forall_app. split; [exact H|]. constructor; [reflexivity|constructor].
  - unfold onTimer. destruct (pending s); [|exact H].
    unfold connect. simpl. destruct (wsOpen s); exact H.
Qed.

Lemma run_invariants (es : list event) : forall s,
  attempts s <= MAX_RECONNECT_ATTEMPTS ->
  Forall (fun d => d = RECONNECT_DELAY) (scheduled s) ->
  attempts (run es s) <= MAX_RECONNECT_ATTEMPTS /\
  Forall (fun d => d = RECONNECT_DELAY) (scheduled (run es s)).
Proof.
  induction es as [|e es IH]; intros s H1 H2; simpl; [auto|].
  apply IH; [apply step_attempts_le | apply step_delays]; assumption.
Qed.

(** C10 as stated, refuted: with a successful open between disconnections
    (onopen resets the counter), six disconnections schedule six
    reconnections, more than MAX_RECONNECT_ATTEMPTS. *)
Lemma socket_reconnects_unbounded :
  ~ (forall es, length (scheduled (run es initial)) <= MAX_RECONNECT_ATTEMPTS).
Proof.
  intro H.
  specialize (H (concat (repeat [EClose; ETimer; EOpen] 6))).
  vm_compute in H. slia.
Qed.

(** An open after each disconnection and reconnect resets the counter, so
    every such cycle schedules one more timeout. *)
Lemma run_cycles (n : nat) : forall s,
  attempts s = 0 ->
  length (scheduled (run (concat (repeat [EClose; ETimer; EOpen] n)) s))
  = length (scheduled s) + n.
Proof.
  induction n as [|n IH]; intros s Hs; simpl; [lia|].
  rewrite IH.
  - unfold onclose. rewrite Hs. simpl. unfold onTimer, connect. simpl.
    destruct (wsOpen s); simpl; rewrite length_app; simpl; lia.
  - reflexivity.
Qed.

(** C10 (amended): Counted from the last successful open, disconnections
    schedule at most MAX_RECONNECT_ATTEMPTS (5) reconnections: from any
    state the hook reaches, a run with no open event adds at most
    [5 - attempts] scheduled timeouts. Every timeout scheduled uses the
    3000 ms delay, and a disconnection once the 5 attempts are used
    schedules nothing and sets the error to the connection-failure
    message. Successful opens reset the counter, so over a session the
    number of reconnections has no bound: for every [n] some run of
    disconnections, reconnects and opens schedules at least [n]. *)
Theorem socket_reconnect_bounded :
  (forall pre es,
     let s := run pre initial in
     no_open es = true ->
     length (scheduled (run es s)) <= length (scheduled s) + (MAX_RECONNECT_ATTEMPTS - attempts s)) /\
  (forall es, Forall (fun d => d = RECONNECT_DELAY) (scheduled (run es initial))) /\
  (forall s, attempts s = MAX_RECONNECT_ATTEMPTS ->
     scheduled (onclose s) = scheduled s /\ error (onclose s) = Some unable_msg) /\
  (forall n, exists es, n <= length (scheduled (run es initial))).
Proof.
  split; [|split; [|split]].
  - intros pre es s Hno.
    destruct (run_invariants pre initial) as [Ha _]; [simpl; slia | constructor |].
    destruct (run_no_open es s Hno Ha) as [[H1 H2] H3]. slia.
  - intro es. apply run_invariants; [simpl; slia | constructor].
  - intros s H. unfold onclose. rewrite H. simpl. split; reflexivity.
  - intro n. exists (concat (repeat [EClose; ETimer; EOpen] n)).
    rewrite run_cycles; [simpl; lia | reflexivity].
Qed.

End SocketFacts.

Lemma socket_reconnect_bounded_witness :
  length (Socket.scheduled
            (Socket.run (concat (repeat [Socket.EClose; Socket.ETimer] 8)) Socket.initial))
  <= 0 + 5 /\
  Socket.scheduled (Socket.onclose
     (Socket.run (concat (repeat [Socket.EClose; Socket.ETimer] 5)) Socket.initial))
  = Socket.scheduled
      (Socket.run (concat (repeat [Socket.EClose; Socket.ETimer] 5)) Socket.initial).
Proof.
  split.
  - apply (proj1 SocketFacts.socket_reconnect_bounded []
             (concat (repeat [Socket.EClose; Socket.ETimer] 8))).
    reflexivity.
  - apply (proj1 (proj2 (proj2 SocketFacts.socket_reconnect_bounded))). reflexivity.
Defined.

(* ------------------------------------------------------------------ *)
(** ** The websocket endpoint *)

Module ServerFacts.
Import Server.

Section Collaborators.
Variable search : string -> outcome (list string).
Variable generate : string -> string -> outcome string.
Variable synthesize : string -> outcome string.

Lemma get_text_client_request (text : string) : get_text (client_request text) = Ok text.
Proof. unfold get_text, client_request. simpl. reflexivity. Qed.

(** The turn on a front-end request, unfolded. *)
Lemma turn_client_request (text : string) :
  turn search generate synthesize (client_request text) =
  (past_context <- get_context search text ;;
   response_text <- generate text (system_prompt past_context) ;;
   audio_base64 <- synthesize response_text ;;
   Ok (response audio_base64 response_text, (text, response_text))).
Proof. unfold turn. rewrite get_text_client_request. reflexivity. Qed.

Lemma turn_ok_inv (text : string) resp save :
  turn search generate synthesize (client_request text) = Ok (resp, save) ->
  exists ctx a audio,
    get_context search text = Ok ctx /\
    generate text (system_prompt ctx) = Ok a /\
    synthesize a = Ok audio /\
    resp = response audio a /\ save = (text, a).
Proof.
  rewrite turn_client_request.
  destruct (get_context search text) as [ctx|e] eqn:Hc; simpl; [|discriminate].
  destruct (generate text (system_prompt ctx)) as [a|e] eqn:Hg; simpl; [|discriminate].
  destruct (synthesize a) as [audio|e] eqn:Hs; simpl; [|discriminate].
  intro H. inversion H; subst. exists ctx, a, audio. auto.
Qed.

(** A turn that returns, on any received message, unfolded. *)
Lemma turn_ok_any (data : json) resp save :
  turn search generate synthesize data = Ok (resp, save) ->
  exists u ctx a audio,
    get_text data = Ok u /\ get_context search u = Ok ctx /\
    generate u (system_prompt ctx) = Ok a /\ synthesize a = Ok audio /\
    resp = response audio a /\ save = (u, a).
Proof.
  unfold turn.
  destruct (get_text data) as [txt|e] eqn:Ht; simpl; [|discriminate].
  destruct (get_context search txt) as [c|e] eqn:Hc; simpl; [|discriminate].
  destruct (generate txt (system_prompt c)) as [ans|e] eqn:Hg; simpl; [|discriminate].
  destruct (synthesize ans) as [au|e] eqn:Hs; simpl; [|discriminate].
  intro H. inversion H; subst. exists txt, c, ans, au.
  repeat split; assumption.
Qed.

End Collaborators.

(** C1: In a chat turn the front end records the user's text exactly as
    typed (and sends exactly that text); on the server the recalled memory
    reaches the LLM only through the system prompt, the user argument of
    [generate] being the raw text; the answer sent back is the LLM's output
    unchanged, and the only entries the turn adds to the transcript are the
    user's text and, when App shows the response, that output. *)
Theorem memory_context_not_in_transcript :
  forall search generate synthesize (s : App.AppState) (text : string) resp save,
    turn search generate synthesize (client_request text) = Ok (resp, save) ->
    exists ctx a audio,
      get_context search text = Ok ctx /\
      generate text (system_prompt ctx) = Ok a /\
      resp = response audio a /\
      to_nemo_response resp
        = Some {| App.r_text := a; App.r_audio := audio; App.r_visemes := [];
                  App.r_error := None |} /\
      App.sent (App.handleSend text s) = App.sent s ++ [text] /\
      let s1 := App.handleSend text s in
      let s2 := App.onResponse {| App.r_text := a; App.r_audio := audio;
                                  App.r_visemes := []; App.r_error := None |} s1 in
      (App.messages s2 = App.messages s ++ [{| App.m_role := App.RUser; App.m_content := text |}]
       \/ App.messages s2 = App.messages s ++ [{| App.m_role := App.RUser; App.m_content := text |};
                                               {| App.m_role := App.RNemo; App.m_content := a |}]).
Proof.
  intros search generate synthesize s text resp save H.
  destruct (turn_ok_inv search generate synthesize text resp save H)
    as (ctx & a & audio & Hc & Hg & Hs & Hr & Hsv).
  exists ctx, a, audio. split; [exact Hc|]. split; [exact Hg|]. split; [exact Hr|].
  split; [subst resp; reflexivity|]. split; [reflexivity|].
  cbv zeta. unfold App.onResponse at 1 2. simpl.
  destruct (App.truthy a); [|left; reflexivity].
  destruct (App.processedResponseRef s) as [p|]; [destruct (String.eqb p a)|];
    simpl; [left; reflexivity | right | right]; rewrite <- app_assoc; reflexivity.
Qed.

Lemma memory_context_not_in_transcript_witness :
  exists ctx a,
    get_context (fun _ => Ok ["deadline is Friday"]) "Remind me about my deadline" = Ok ctx /\
    (fun (u sp : string) => Ok "It is Friday.") "Remind me about my deadline" (system_prompt ctx)
    = Ok a.
Proof.
  destruct (memory_context_not_in_transcript
              (fun _ => Ok ["deadline is Friday"])
              (fun (u sp : string) => Ok "It is Friday.")
              (fun _ => Ok "QUJD")
              App.initial "Remind me about my deadline"
              (response "QUJD" "It is Friday.")
              ("Remind me about my deadline", "It is Friday.")
              eq_refl)
    as (ctx & a & audio & Hc & Hg & _).
  exists ctx, a. split; [exact Hc | exact Hg].
Defined.

(** C4 as stated, refuted: when the memory search raises, the endpoint
    sends no answer for the turn (the exception reaches the handler around
    the whole loop, which prints it and leaves the loop). *)
Lemma memory_failure_no_answer :
  ~ (forall search generate synthesize text,
       (exists e, search text = Raise e) ->
       exists resp, In (ESend resp) (endpoint search generate synthesize [client_request text])).
Proof.
  intro H.
  destruct (H (fun _ => Raise "timeout") (fun _ _ => Ok "hello") (fun _ => Ok "QUJD") "hi"
              (ex_intro _ "timeout" eq_refl)) as [resp Hin].
  simpl in Hin. destruct Hin as [Hin | []]. discriminate.
Qed.

(** C4 (amended): Memory retrieval is not isolated from the turn in the
    websocket endpoint. If the memory search raises, the endpoint prints
    the error and leaves its receive loop: no answer is sent for that turn
    and no later message is processed. If the search returns (possibly no
    memories, giving an empty context), the turn goes on to the LLM with
    that context in the system prompt and, when the LLM and TTS return,
    sends the answer and schedules the memory save. *)
Theorem memory_failure_ends_connection :
  forall search generate synthesize text rest,
    (forall e, search text = Raise e ->
       endpoint search generate synthesize (client_request text :: rest)
       = [EPrint ("Error: " ++ e)%string]) /\
    (forall ms a audio, search text = Ok ms ->
       generate text (system_prompt (join nl ms)) = Ok a -> synthesize a = Ok audio ->
       endpoint search generate synthesize (client_request text :: rest)
       = ESend (response audio a) :: ECreateTask text a
           :: endpoint search generate synthesize rest).
Proof.
  intros search generate synthesize text rest. split.
  - intros e He. simpl. rewrite turn_client_request. unfold get_context.
    rewrite He. reflexivity.
  - intros ms a audio Hs Hg Ha. simpl. rewrite turn_client_request. unfold get_context.
    rewrite Hs. simpl. rewrite Hg. simpl. rewrite Ha. reflexivity.
Qed.

Lemma memory_failure_ends_connection_witness :
  endpoint (fun _ => Raise "timeout") (fun _ _ => Ok "hello") (fun _ => Ok "QUJD")
    [client_request "hi"; client_request "again"] = [EPrint ("Error: " ++ "timeout")%string] /\
  endpoint (fun _ => Ok []) (fun _ _ => Ok "hello") (fun _ => Ok "QUJD") [client_request "hi"]
    = [ESend (response "QUJD" "hello"); ECreateTask "hi" "hello"].
Proof.
  split.
  - apply (proj1 (memory_failure_ends_connection (fun _ => Raise "timeout")
                    (fun _ _ => Ok "hello") (fun _ => Ok "QUJD") "hi" [client_request "again"])).
    reflexivity.
  - apply (proj2 (memory_failure_ends_connection (fun _ => Ok [])
                    (fun _ _ => Ok "hello") (fun _ => Ok "QUJD") "hi" []) [] "hello" "QUJD");
      reflexivity.
Defined.

(** C7 as stated, refuted: the object the endpoint sends has no
    [final_text] field, so it does not have the result shape. *)
Lemma response_not_result_shape :
  ~ (forall search generate synthesize text resp save,
       turn search generate synthesize (client_request text) = Ok (resp, save) ->
       result_shape resp = true).
Proof.
  intro H.
  specialize (H (fun _ => Ok []) (fun _ _ => Ok "hello") (fun _ => Ok "QUJD") "hi"
                (response "QUJD" "hello") ("hi", "hello") eq_refl).
  vm_compute in H. discriminate.
Qed.

(** C7 (amended): Every request the front end sends is [{text}], which has
    the shape [{text, user_id?}]. Every result the endpoint sends, whatever
    it received, is [{audio, text, visemes}], the [NemoResponse] shape the
    front end reads: it answers one received message whose [text] the
    turn read, its [text] field is the LLM's answer and its [audio] field
    the TTS output of that answer, and it is not of the shape
    [{final_text, streamed_deltas?, tool_trace?}]. *)
Theorem interface_shapes :
  (forall text, request_shape (client_request text) = true) /\
  (forall search generate synthesize reqs r,
     In (ESend r) (endpoint search generate synthesize reqs) ->
     exists d u ctx a audio,
       In d reqs /\ get_text d = Ok u /\ get_context search u = Ok ctx /\
       generate u (system_prompt ctx) = Ok a /\ synthesize a = Ok audio /\
       r = response audio a /\
       nemo_response_shape r = true /\ result_shape r = false /\
       to_nemo_response r
         = Some {| App.r_text := a; App.r_audio := audio; App.r_visemes := [];
                   App.r_error := None |}).
Proof.
  split.
  - intro text. reflexivity.
  - intros search generate synthesize reqs r.
    induction reqs as [|d reqs IH]; simpl; [intros []|].
    destruct (turn search generate synthesize d) as [[resp [u a]]|e] eqn:Ht.
    + intros [Hr | [Hc | Hin]]; [|discriminate|].
      * destruct (turn_ok_any search generate synthesize d resp (u, a) Ht)
          as (u' & ctx & a' & audio & Hg & Hc & Hl & Hs & Hresp & Hsave).
        injection Hr as Hr. subst r resp. exists d, u', ctx, a', audio.
        split; [left; reflexivity|]. do 4 (split; [assumption|]).
        split; [reflexivity|]. split; [reflexivity|]. split; reflexivity.
      * destruct (IH Hin) as (d' & u' & c' & a' & au & Hd & Hrest).
        exists d', u', c', a', au. split; [right; exact Hd | exact Hrest].
    + intros [H | []]. discriminate.
Qed.

Lemma interface_shapes_witness :
  request_shape (client_request "hi") = true /\
  nemo_response_shape (response "QUJD" "hello") = true /\
  result_shape (response "QUJD" "hello") = false.
Proof.
  split; [apply (proj1 interface_shapes)|].
  destruct (proj2 interface_shapes (fun _ => Ok []) (fun _ _ => Ok "hello") (fun _ => Ok "QUJD")
              [client_request "hi"] (response "QUJD" "hello"))
    as (d & u & ctx & a & audio & _ & _ & _ & _ & _ & _ & Hn & Hres & _).
  - simpl. left. reflexivity.
  - split; [exact Hn | exact Hres].
Defined.

End ServerFacts.

(* ------------------------------------------------------------------ *)
(** ** Background memory saves *)

Module BackgroundFacts.
Import Server Background.

Lemma sends_of_app (l1 l2 : list effect) : sends_of (l1 ++ l2) = sends_of l1 ++ sends_of l2.
Proof. induction l1 as [|[] l1 IH]; simpl; f_equal; auto. Qed.

Lemma tasks_of_app (l1 l2 : list effect) : tasks_of (l1 ++ l2) = tasks_of l1 ++ tasks_of l2.
Proof. induction l1 as [|[] l1 IH]; simpl; f_equal; auto. Qed.

Lemma sent_in_app (t1 t2 : list obs) : sent_in (t1 ++ t2) = sent_in t1 ++ sent_in t2.
Proof. induction t1 as [|[] t1 IH]; simpl; f_equal; auto. Qed.

Lemma saved_in_app (t1 t2 : list obs) : saved_in (t1 ++ t2) = saved_in t1 ++ saved_in t2.
Proof. induction t1 as [|[] t1 IH]; simpl; f_equal; auto. Qed.

Lemma firstn_skipn_next {A} (k : nat) (E : list A) x rest :
  skipn k E = x :: rest -> firstn (S k) E = firstn k E ++ [x] /\ skipn (S k) E = rest.
Proof.
  revert E. induction k as [|k IH]; intros [|y E] H; simpl in *; try discriminate.
  - inversion H; subst. split; reflexivity.
  - destruct (IH E H) as [H1 H2]. rewrite H1. split; [reflexivity | exact H2].
Qed.

(** The invariant of the interleaving: some prefix of the endpoint's
    effects has run; the trace shows exactly its sends, and the saves done,
    the save running and the ready queue are exactly its created tasks, in
    order. *)
Lemma reach_inv (E : list effect) (c : config) :
  reach E c ->
  exists k, remaining c = skipn k E /\
            sent_in (trace c) = sends_of (firstn k E) /\
            saved_in (trace c) ++ in_flight c ++ queue c = tasks_of (firstn k E).
Proof.
  induction 1 as [|c c' Hr IH Hs].
  - exists 0. simpl. auto.
  - destruct IH as (k & Hrem & Hsent & Hsaved).
    inversion Hs; subst; unfold in_flight in *; simpl in *.
    + destruct (firstn_skipn_next k E _ _ (eq_sym Hrem)) as [Hf Hk].
      exists (S k). rewrite Hf, sends_of_app, tasks_of_app, sent_in_app, saved_in_app.
      simpl. rewrite Hsent, <- Hsaved, !app_nil_r. auto.
    + destruct (firstn_skipn_next k E _ _ (eq_sym Hrem)) as [Hf Hk].
      exists (S k). rewrite Hf, sends_of_app, tasks_of_app.
      simpl. rewrite Hsent, <- Hsaved, !app_nil_r, app_assoc. auto.
    + destruct (firstn_skipn_next k E _ _ (eq_sym Hrem)) as [Hf Hk].
      exists (S k). rewrite Hf, sends_of_app, tasks_of_app, sent_in_app, saved_in_app.
      simpl. rewrite Hsent, <- Hsaved, !app_nil_r. auto.
    + exists k. rewrite sent_in_app, saved_in_app. simpl.
      rewrite !app_nil_r, Hsent, <- Hsaved. auto.
    + exists k. rewrite sent_in_app, saved_in_app. simpl.
      rewrite app_nil_r, Hsent, <- Hsaved, <- app_assoc. auto.
Qed.

Section Collaborators.
Variable search : string -> outcome (list string).
Variable generate : string -> string -> outcome string.
Variable synthesize : string -> outcome string.

(** Within the endpoint's effects each turn's send precedes its task. *)
Lemma endpoint_send_first (reqs : list json) : forall k,
  length (tasks_of (firstn k (endpoint search generate synthesize reqs)))
  <= length (sends_of (firstn k (endpoint search generate synthesize reqs))).
Proof.
  induction reqs as [|d reqs IH]; intro k; simpl.
  - rewrite firstn_nil. simpl. lia.
  - destruct (turn search generate synthesize d) as [[resp [u a]]|e].
    + destruct k as [|[|k]]; simpl; [lia|lia|]. specialize (IH k). lia.
    + destruct k; simpl; [lia|]. rewrite firstn_nil. simpl. lia.
Qed.

(** The endpoint's sends and tasks pair up turn by turn: turn [i]'s
    task saves the user text and exactly the answer turn [i] sent. *)
Lemma endpoint_turns (reqs : list json) :
  exists turns : list (json * (string * string)),
    sends_of (endpoint search generate synthesize reqs) = map fst turns /\
    tasks_of (endpoint search generate synthesize reqs) = map snd turns /\
    Forall (fun rt => exists audio, fst rt = response audio (snd (snd rt))) turns.
Proof.
  induction reqs as [|d reqs IH]; simpl.
  - exists []. simpl. auto.
  - unfold turn. destruct (get_text d) as [u|e]; simpl; [|exists []; simpl; auto].
    destruct (get_context search u) as [ctx|e]; simpl; [|exists []; simpl; auto].
    destruct (generate u (system_prompt ctx)) as [a|e]; simpl; [|exists []; simpl; auto].
    destruct (synthesize a) as [audio|e]; simpl; [|exists []; simpl; auto].
    destruct IH as (turns & H1 & H2 & H3).
    exists ((response audio a, (u, a)) :: turns). simpl.
    rewrite H1, H2. split; [reflexivity|]. split; [reflexivity|].
    constructor; [exists audio; reflexivity | exact H3].
Qed.

End Collaborators.

(** Two turns, "hi" and "bye", answered "hello" with audio "QUJD": turn
    1's answer is on the socket, its save has been started, and the
    endpoint's next effect is turn 2's response. *)
Definition ex_reqs : list json := [client_request "hi"; client_request "bye"].

Definition ex_endpoint : list effect :=
  endpoint (fun _ => Ok []) (fun _ _ => Ok "hello") (fun _ => Ok "QUJD") ex_reqs.

Definition ex_saving : config :=
  {| remaining := [ESend (response "QUJD" "hello"); ECreateTask "bye" "hello"];
     queue := [];
     running := Some ("hi", "hello");
     trace := [OSent (response "QUJD" "hello"); OPrinted saving_msg] |}.

Lemma ex_saving_reach : reach ex_endpoint ex_saving.
Proof.
  apply (reach_step _
           {| remaining := [ESend (response "QUJD" "hello"); ECreateTask "bye" "hello"];
              queue := [("hi", "hello")]; running := None;
              trace := [OSent (response "QUJD" "hello")] |});
    [|apply step_start].
  apply (reach_step _
           {| remaining := [ECreateTask "hi" "hello"; ESend (response "QUJD" "hello");
                            ECreateTask "bye" "hello"];
              queue := []; running := None;
              trace := [OSent (response "QUJD" "hello")] |});
    [|apply (step_create "hi" "hello" _ [] _)].
  apply (reach_step _ {| remaining := ex_endpoint; queue := []; running := None; trace := [] |});
    [apply reach_init|].
  vm_compute. apply step_send.
Qed.

(** C5, what the code guarantees: at every reachable point of the event
    loop running the endpoint and its save tasks, the saves performed so
    far are, in order, a prefix of the tasks the turns created (turn N's
    save is never after turn N+1's); the responses sent so far are a prefix
    of the endpoint's responses; no more saves than sends have happened (a
    turn's answer is on the socket before its save runs); a running save
    ends, succeeded or failed, leaving the endpoint where it was (a failed
    save does not fail a turn); and while no save is running the endpoint
    can take its next step. Each task carries the user text and exactly the
    answer its turn sent. *)
Theorem persist_detached_ordered :
  forall search generate synthesize reqs c,
    let E := endpoint search generate synthesize reqs in
    reach E c ->
    prefix (saved_in (trace c)) (tasks_of E) /\
    prefix (sent_in (trace c)) (sends_of E) /\
    length (saved_in (trace c)) <= length (sent_in (trace c)) /\
    (forall u a ok, running c = Some (u, a) ->
       exists c', step c c' /\ reach E c' /\ running c' = None /\
                  remaining c' = remaining c /\ trace c' = trace c ++ [OSaved u a ok]) /\
    (running c = None -> forall x rest, remaining c = x :: rest ->
       exists c', step c c' /\ remaining c' = rest /\ reach E c') /\
    (exists turns, sends_of E = map fst turns /\ tasks_of E = map snd turns /\
       Forall (fun rt => exists audio, fst rt = response audio (snd (snd rt))) turns).
Proof.
  intros search generate synthesize reqs c E Hr.
  destruct (reach_inv E c Hr) as (k & Hrem & Hsent & Hsaved).
  split; [|split; [|split; [|split; [|split]]]].
  - exists (in_flight c ++ queue c ++ tasks_of (skipn k E)).
    rewrite (app_assoc (in_flight c)), app_assoc, Hsaved, <- tasks_of_app, firstn_skipn.
    reflexivity.
  - exists (sends_of (skipn k E)).
    rewrite Hsent, <- sends_of_app, firstn_skipn. reflexivity.
  - rewrite Hsent.
    assert (Hl : length (saved_in (trace c)) <= length (tasks_of (firstn k E))).
    { rewrite <- Hsaved, length_app. lia. }
    pose proof (endpoint_send_first search generate synthesize reqs k). unfold E in *. lia.
  - intros u a ok Hrun. destruct c as [rem q run t]. simpl in Hrun. subst run.
    exists {| remaining := rem; queue := q; running := None; trace := t ++ [OSaved u a ok] |}.
    split; [constructor|]. split; [eapply reach_step; [exact Hr|constructor]|]. auto.
  - intros Hrun x rest Hx. destruct c as [rem q run t]. simpl in Hrun, Hx. subst rem run.
    destruct x as [r|u a|m].
    + exists {| remaining := rest; queue := q; running := None; trace := t ++ [OSent r] |}.
      split; [constructor|]. split; [reflexivity|]. eapply reach_step; [exact Hr|constructor].
    + exists {| remaining := rest; queue := q ++ [(u, a)]; running := None; trace := t |}.
      split; [constructor|]. split; [reflexivity|]. eapply reach_step; [exact Hr|constructor].
    + exists {| remaining := rest; queue := q; running := None; trace := t ++ [OPrinted m] |}.
      split; [constructor|]. split; [reflexivity|]. eapply reach_step; [exact Hr|constructor].
  - apply endpoint_turns.
Qed.

Lemma persist_detached_ordered_witness :
  length (saved_in (trace ex_saving)) <= length (sent_in (trace ex_saving)) /\
  exists c', step ex_saving c' /\ reach ex_endpoint c' /\ running c' = None /\
             remaining c' = remaining ex_saving /\
             trace c' = trace ex_saving ++ [OSaved "hi" "hello" false].
Proof.
  destruct (persist_detached_ordered (fun _ => Ok []) (fun _ _ => Ok "hello")
              (fun _ => Ok "QUJD") ex_reqs ex_saving ex_saving_reach)
    as (_ & _ & Hle & Hfin & _).
  split; [exact Hle|]. apply Hfin. reflexivity.
Defined.

(** C5 as stated, refuted: the save does block the conversation. Once the
    loop has started turn 1's save, the endpoint cannot send turn 2's
    answer until Mem0's synchronous add returns: the only step is the end
    of the save. *)
Lemma persist_blocks_next_turn :
  ~ (forall search generate synthesize reqs c,
       reach (endpoint search generate synthesize reqs) c ->
       forall x rest, remaining c = x :: rest -> exists c', step c c' /\ remaining c' = rest).
Proof.
  intro H.
  destruct (H (fun _ => Ok []) (fun _ _ => Ok "hello") (fun _ => Ok "QUJD") ex_reqs ex_saving
              ex_saving_reach _ _ eq_refl) as (c' & Hs & Hrem).
  unfold ex_saving in Hs. inversion Hs; subst. simpl in Hrem. discriminate.
Qed.

End BackgroundFacts.

(* ------------------------------------------------------------------ *)
(** ** ContextWindow *)

Module ContextWindowFacts.
Import Core ContextWindow.

Lemma evict_sys (h : list Msg) : sys (evict_oldest h) = sys h.
Proof.
  induction h as [|m h IH]; [reflexivity|]. unfold sys in *. simpl.
  destruct (is_system m) eqn:E; simpl; rewrite ?E, ?IH; reflexivity.
Qed.

Lemma evict_nonsys (h : list Msg) : nonsys (evict_oldest h) = tl (nonsys h).
Proof.
  induction h as [|m h IH]; [reflexivity|]. unfold nonsys in *. simpl.
  destruct (is_system m) eqn:E; simpl; rewrite ?E; simpl; [exact IH | reflexivity].
Qed.

Lemma drop_sys (k : nat) : forall h, sys (drop_nonsys k h) = sys h.
Proof. induction k; intro h; simpl; [reflexivity|]. rewrite IHk. apply evict_sys. Qed.

Lemma drop_nonsys_spec (k : nat) : forall h, nonsys (drop_nonsys k h) = skipn k (nonsys h).
Proof.
  induction k; intro h; simpl; [reflexivity|].
  rewrite IHk, evict_nonsys. destruct (nonsys h); simpl; [destruct k|]; reflexivity.
Qed.

Section Budget.
Variable cost : Msg -> nat.
Variable budget : nat.

Lemma evictable_nonsys (h : list Msg) :
  evictable cost budget h =
  match nonsys h with [] => false | [x] => Nat.leb (cost x) budget | _ => true end.
Proof. reflexivity. Qed.

Lemma count_nonsys_length (h : list Msg) : count_nonsys h = length (nonsys h).
Proof. reflexivity. Qed.

(** [enforce] is a number of evictions of the oldest non-system message,
    each made while over budget, and stops within budget, with no
    non-system message left, or with one left whose own cost exceeds the
    budget. *)
Lemma enforce_spec (fuel : nat) : forall h,
  count_nonsys h <= fuel ->
  exists k, enforce cost budget fuel h = drop_nonsys k h /\
    (forall j, j < k -> budget < total cost (drop_nonsys j h)) /\
    (total cost (enforce cost budget fuel h) <= budget \/
     nonsys (enforce cost budget fuel h) = [] \/
     exists x, nonsys (enforce cost budget fuel h) = [x] /\ budget < cost x).
Proof.
  induction fuel as [|f IH]; intros h Hc; simpl.
  - exists 0. split; [reflexivity|]. split; [intros j Hj; lia|].
    right; left. rewrite count_nonsys_length in Hc.
    destruct (nonsys h); [reflexivity | simpl in Hc; lia].
  - destruct (Nat.ltb budget (total cost h)) eqn:Hb; [destruct (evictable cost budget h) eqn:He|]; simpl.
    + assert (Hne : nonsys h <> []).
      { intro E. rewrite evictable_nonsys, E in He. discriminate. }
      assert (Hcnt : count_nonsys (evict_oldest h) = pred (count_nonsys h)).
      { rewrite !count_nonsys_length, evict_nonsys. destruct (nonsys h); reflexivity. }
      destruct (IH (evict_oldest h)) as (k & Hk & Hover & Hend).
      { rewrite Hcnt. lia. }
      exists (S k). split; [exact Hk|]. split; [|exact Hend].
      intros j Hj. destruct j as [|j].
      * apply Nat.ltb_lt, Hb.
      * apply (Hover j). lia.
    + exists 0. split; [reflexivity|]. split; [intros j Hj; lia|]. right.
      rewrite evictable_nonsys in He.
      destruct (nonsys h) as [|x [|y r]]; [left; reflexivity | right | discriminate].
      exists x. split; [reflexivity|]. apply Nat.leb_gt, He.
    + exists 0. split; [reflexivity|]. split; [intros j Hj; lia|].
      left. apply Nat.ltb_ge, Hb.
Qed.

Lemma count_le_length (h : list Msg) : count_nonsys h <= length h.
Proof. unfold count_nonsys. apply filter_length_le || (induction h; simpl; [lia|]; destruct (negb (is_system a)); simpl; lia). Qed.

End Budget.

Lemma last_skipn {A} (k : nat) (l : list A) (d x : A) :
  skipn k (l ++ [x]) <> [] -> last (skipn k (l ++ [x])) d = x.
Proof.
  revert l. induction k; intros l H; simpl.
  - apply last_last.
  - destruct l as [|y l]; simpl in *.
    + destruct k; simpl in H; congruence.
    + apply IHk, H.
Qed.

Lemma skipn_single_last {A} (k : nat) (l : list A) (d x : A) :
  skipn k l = [x] -> last l d = x.
Proof.
  revert l. induction k; intros l H; simpl in H.
  - subst l. reflexivity.
  - destruct l as [|y l]; [discriminate|].
    assert (Hl : l <> []) by (intro E; subst l; destruct k; discriminate).
    simpl. destruct l as [|z l]; [contradiction|]. apply IHk, H.
Qed.

(** C3 as stated, refuted: with the standing system instruction at the
    head, a message whose cost alone exceeds the budget is kept next to it,
    not alone, and the total stays over budget. *)
Lemma context_window_not_alone :
  ~ (forall cost budget h m,
       total cost (append cost budget m h) <= budget \/
       exists x, budget < cost x /\ append cost budget m h = [x]).
Proof.
  intro H.
  destruct (H (fun m => String.length (content m)) 10
              [msg RSystem "You are Klix."] (msg RUser "Tell me about my project please."))
    as [Hle | (x & Hx & Happ)].
  - vm_compute in Hle. lia.
  - vm_compute in Happ. discriminate.
Qed.

(** C3 (amended): After each append, the total cost is within the budget,
    or no non-system message is left (the system messages alone exceed the
    budget), or the only non-system message left is the newest one, whose
    own cost exceeds the budget; it is then kept beside the system
    messages, not alone. Eviction removes the oldest non-system messages,
    in insertion order, and only while the total is over budget; the
    system messages are all kept and the non-system messages kept are the
    newest ones in their original order, so when any is kept the newest
    message (if not a system message) is the last of them. *)
Theorem context_window_append_spec :
  forall cost budget (h : list Msg) (m : Msg),
    let h' := append cost budget m h in
    (total cost h' <= budget \/ nonsys h' = [] \/
     exists x, nonsys h' = [x] /\ budget < cost x /\ x = last (nonsys (h ++ [m])) m) /\
    (exists k, h' = drop_nonsys k (h ++ [m]) /\
               nonsys h' = skipn k (nonsys (h ++ [m])) /\
               forall j, j < k -> budget < total cost (drop_nonsys j (h ++ [m]))) /\
    sys h' = sys (h ++ [m]) /\
    (is_system m = false -> nonsys h' <> [] -> last (nonsys h') m = m).
Proof.
  intros cost budget h m h'.
  destruct (enforce_spec cost budget (length (h ++ [m])) (h ++ [m]) (count_le_length _))
    as (k & Hk & Hover & Hend).
  unfold append in h'. fold h' in Hk, Hend.
  assert (Hsk : nonsys h' = skipn k (nonsys (h ++ [m]))) by (rewrite Hk; apply drop_nonsys_spec).
  split.
  { destruct Hend as [Hle | [Hnil | (x & Hx & Hc)]]; [left; exact Hle | right; left; exact Hnil|].
    right; right. exists x. split; [exact Hx|]. split; [exact Hc|].
    symmetry. apply (skipn_single_last k). rewrite <- Hsk. exact Hx. }
  split; [exists k; split; [exact Hk | split; [exact Hsk | exact Hover]]|].
  split; [rewrite Hk; apply drop_sys|].
  intros Hm Hne.
  assert (Hn : nonsys (h ++ [m]) = nonsys h ++ [m]).
  { unfold nonsys. rewrite filter_app. simpl. rewrite Hm. reflexivity. }
  rewrite Hsk, Hn in *. apply last_skipn, Hne.
Qed.

Lemma context_window_append_spec_witness :
  let cost := fun m => String.length (content m) in
  append cost 10 (msg RUser "hello") [msg RSystem "You are."] = [msg RSystem "You are."] /\
  append cost 14 (msg RUser "hello") [msg RSystem "You are."; msg RUser "hi"]
    = [msg RSystem "You are."; msg RUser "hello"] /\
  last (nonsys (append cost 14 (msg RUser "hello") [msg RSystem "You are."; msg RUser "hi"]))
       (msg RUser "hello") = msg RUser "hello".
Proof.
  intros cost. split; [vm_compute; reflexivity|]. split; [vm_compute; reflexivity|].
  apply (proj2 (proj2 (proj2 (context_window_append_spec cost 14
           [msg RSystem "You are."; msg RUser "hi"] (msg RUser "hello"))))).
  - reflexivity.
  - vm_compute. discriminate.
Defined.

End ContextWindowFacts.

(* ------------------------------------------------------------------ *)
(** ** AgentLoop: bounded tool-call rounds *)

Module AgentLoopFacts.
Import Core AgentLoop.

Section Bound.
Variable max_rounds : nat.
Variable chat : list Msg -> LLMResponse.
Variable run_tool : ToolInvocation -> Msg.
Variable push : Msg -> list Msg -> list Msg.

Local Abbreviation stepT := (step max_rounds chat run_tool push).
Local Abbreviation runT := (run max_rounds chat run_tool push).

Lemma step_terminal (s : Turn) : terminal s = true -> stepT s = s.
Proof. unfold terminal, step. destruct (phase_of s); congruence. Qed.

Lemma run_terminal (n : nat) : forall s, terminal s = true -> runT n s = s.
Proof.
  induction n; intros s H; simpl; [reflexivity|].
  rewrite (step_terminal s H). apply IHn, H.
Qed.

Lemma step_inv (s : Turn) : Inv max_rounds s -> Inv max_rounds (stepT s).
Proof.
  unfold Inv, step.
  intros [(Hp & Hrc & Hle) | [(t & Hp & Hc & Hr) | (Hp & Hr & Hc)]]; rewrite Hp.
  - destruct (chat (history s)) as [t|cs]; simpl.
    + right; left. exists t. repeat split; lia.
    + destruct (Nat.ltb max_rounds (S (round_count s))) eqn:Hl.
      * apply Nat.ltb_lt in Hl. right; right. repeat split; lia.
      * apply Nat.ltb_ge in Hl. left. repeat split; lia.
  - right; left. exists t. auto.
  - right; right. auto.
Qed.

Lemma run_inv (n : nat) : forall s, Inv max_rounds s -> Inv max_rounds (runT n s).
Proof. induction n; intros s H; simpl; [exact H|]. apply IHn, step_inv, H. Qed.

(** Calls made so far, while still calling the LLM. *)
Lemma run_calls (n : nat) : forall s,
  phase_of (runT n s) = CallingLLM -> llm_calls (runT n s) = n + llm_calls s.
Proof.
  induction n; intros s H; simpl in *; [reflexivity|].
  destruct (phase_of s) eqn:Hp.
  - rewrite IHn by exact H. unfold step. rewrite Hp.
    destruct (chat (history s)); simpl; lia.
  - assert (E : stepT s = s) by (apply step_terminal; unfold terminal; rewrite Hp; reflexivity).
    rewrite E in H. rewrite run_terminal in H by (unfold terminal; rewrite Hp; reflexivity).
    congruence.
  - assert (E : stepT s = s) by (apply step_terminal; unfold terminal; rewrite Hp; reflexivity).
    rewrite E in H. rewrite run_terminal in H by (unfold terminal; rewrite Hp; reflexivity).
    congruence.
Qed.

Lemma start_inv (h : list Msg) : Inv max_rounds (start h).
Proof. left. simpl. repeat split; lia. Qed.

Lemma run_plus (n m : nat) (s : Turn) : runT (n + m) s = runT m (runT n s).
Proof. revert s. induction n; intro s; simpl; auto. Qed.

End Bound.

(** C2 (modelled from the spec): For any LLM behaviour, a turn makes at
    most [max_rounds + 1] LLM calls; whenever [round_count] exceeds
    [max_rounds] the turn has ended with the degraded ToolLoopExceeded
    answer; after [max_rounds + 1] steps the turn is over and stays over;
    and an LLM that always answers with tool calls gets the degraded
    answer. *)
Theorem tool_rounds_bounded :
  forall max_rounds chat run_tool push (h : list Msg),
    (forall n, llm_calls (run max_rounds chat run_tool push n (start h)) <= S max_rounds) /\
    (forall n, max_rounds < round_count (run max_rounds chat run_tool push n (start h)) ->
       phase_of (run max_rounds chat run_tool push n (start h)) = Degraded degraded_answer) /\
    terminal (run max_rounds chat run_tool push (S max_rounds) (start h)) = true /\
    (forall n, S max_rounds <= n ->
       run max_rounds chat run_tool push n (start h)
       = run max_rounds chat run_tool push (S max_rounds) (start h)) /\
    ((forall hist, exists cs, chat hist = ToolCalls cs) ->
       phase_of (run max_rounds chat run_tool push (S max_rounds) (start h))
       = Degraded degraded_answer).
Proof.
  intros max_rounds chat run_tool push h.
  assert (Hterm : terminal (run max_rounds chat run_tool push (S max_rounds) (start h)) = true).
  { destruct (run_inv max_rounds chat run_tool push (S max_rounds) (start h) (start_inv max_rounds h))
      as [(Hp & Hrc & Hle) | [(t & Hp & _) | (Hp & _)]];
      unfold terminal; rewrite Hp; [|reflexivity|reflexivity].
    pose proof (run_calls max_rounds chat run_tool push (S max_rounds) (start h) Hp) as Hc.
    change (llm_calls (start h)) with 0 in Hc. lia. }
  split; [|split; [|split; [exact Hterm|split]]].
  - intro n.
    destruct (run_inv max_rounds chat run_tool push n (start h) (start_inv max_rounds h))
      as [(_ & Hrc & Hle) | [(t & _ & Hc & _) | (_ & _ & Hc)]]; lia.
  - intros n Hgt.
    destruct (run_inv max_rounds chat run_tool push n (start h) (start_inv max_rounds h))
      as [(_ & _ & Hle) | [(t & _ & _ & Hr) | (Hp & _)]]; [lia|lia|exact Hp].
  - intros n Hn. replace n with (S max_rounds + (n - S max_rounds)) by lia.
    rewrite run_plus. apply run_terminal, Hterm.
  - intro Htools.
    destruct (run_inv max_rounds chat run_tool push (S max_rounds) (start h) (start_inv max_rounds h))
      as [(Hp & _) | [(t & Hp & Hc & Hr) | (Hp & _)]]; [| |exact Hp].
    + unfold terminal in Hterm. rewrite Hp in Hterm. discriminate.
    + exfalso.
      (* a finalized turn needed a plain-text answer from the LLM *)
      assert (Hnf : forall n s, phase_of s = CallingLLM ->
                phase_of (run max_rounds chat run_tool push n s) <> Finalized t).
      { induction n as [|n IH]; intros s Hs; simpl; [congruence|].
        unfold step at 1. rewrite Hs.
        destruct (Htools (history s)) as [cs Hcs]. rewrite Hcs.
        destruct (Nat.ltb max_rounds (S (round_count s))).
        - rewrite run_terminal by reflexivity. simpl. discriminate.
        - apply IH. reflexivity. }
      exact (Hnf (S max_rounds) (start h) eq_refl Hp).
Qed.

Lemma tool_rounds_bounded_witness :
  phase_of (run 3 (fun _ => ToolCalls [{| inv_id := "1"; inv_name := "ls" |}])
                (fun i => msg RTool "no such tool") (fun m h => h ++ [m]) 4 (start []))
  = Degraded degraded_answer.
Proof.
  apply (proj2 (proj2 (proj2 (proj2 (tool_rounds_bounded 3
     (fun _ => ToolCalls [{| inv_id := "1"; inv_name := "ls" |}])
     (fun i => msg RTool "no such tool") (fun m h => h ++ [m]) []))))).
  intro hist. eexists. reflexivity.
Defined.

End AgentLoopFacts.

(* ------------------------------------------------------------------ *)
(** ** ToolRegistry.execute *)

Module ToolRegistryFacts.
Import ToolRegistry.

Lemma validate_spec (ps : list ToolParameter) (a : args) :
  validate ps a = true <->
  (forall p, In p ps ->
     (lookup_arg (pname p) a = None -> required p = false) /\
     (forall v, lookup_arg (pname p) a = Some v -> coercible (ptype p) v = true)).
Proof.
  unfold validate. rewrite forallb_forall. split.
  - intros H p Hp. specialize (H p Hp).
    destruct (lookup_arg (pname p) a) as [v|]; split.
    + discriminate.
    + intros w E. inversion E; subst. exact H.
    + intros _. apply negb_true_iff, H.
    + discriminate.
  - intros H p Hp. destruct (H p Hp) as [H1 H2].
    destruct (lookup_arg (pname p) a) as [v|].
    + apply H2. reflexivity.
    + rewrite (H1 eq_refl). reflexivity.
Qed.

(** C6 (modelled from the spec): [execute] on an unregistered name gives
    an UnknownTool error; on a registered tool whose arguments fail
    validation (a required parameter missing or a value not coercible to
    its declared type) an InvalidArguments error; otherwise it runs the
    executor and wraps what it returns as the output, and what it raises as
    a ToolExecutionError. Every result carries the invocation id and
    exactly one of output and error. *)
Theorem tool_execute_spec :
  forall (reg : list Tool) (call_id name : string) (a : args),
    let r := execute reg call_id name a in
    (find_tool name reg = None -> error_kind_of r = Some UnknownTool /\ output r = None) /\
    (forall t, find_tool name reg = Some t -> validate (parameters t) a = false ->
       error_kind_of r = Some InvalidArguments /\ output r = None) /\
    (forall t o, find_tool name reg = Some t -> validate (parameters t) a = true ->
       executor t a = Returned o -> output r = Some o /\ error r = None) /\
    (forall t e, find_tool name reg = Some t -> validate (parameters t) a = true ->
       executor t a = Raised e -> error r = Some (ToolExecutionError, e) /\ output r = None) /\
    exactly_one r = true /\ tr_id r = call_id.
Proof.
  intros reg call_id name a r. unfold r, execute, error_kind_of.
  split; [|split; [|split; [|split]]].
  - intro H. rewrite H. split; reflexivity.
  - intros t Ht Hv. rewrite Ht, Hv. split; reflexivity.
  - intros t o Ht Hv He. rewrite Ht, Hv, He. split; reflexivity.
  - intros t e Ht Hv He. rewrite Ht, Hv, He. split; reflexivity.
  - destruct (find_tool name reg) as [t|]; [|split; reflexivity].
    destruct (validate (parameters t) a); [|split; reflexivity].
    destruct (executor t a); split; reflexivity.
Qed.

Lemma tool_execute_spec_witness :
  let ls := {| tname := "ls";
               parameters := [{| pname := "path"; ptype := PString; required := true |}];
               executor := fun a => match lookup_arg "path" a with
                                    | Some (VStr "/missing") => Raised "File not found"
                                    | _ => Returned "a.txt" end |} in
  error_kind_of (execute [ls] "c1" "cat" []) = Some UnknownTool /\
  error_kind_of (execute [ls] "c2" "ls" []) = Some InvalidArguments /\
  error (execute [ls] "c3" "ls" [("path", VStr "/missing")])
    = Some (ToolExecutionError, "File not found").
Proof.
  intro ls. split; [|split].
  - apply (proj1 (tool_execute_spec [ls] "c1" "cat" [])). reflexivity.
  - apply (proj1 (proj2 (tool_execute_spec [ls] "c2" "ls" [])) ls); reflexivity.
  - apply (proj1 (proj2 (proj2 (proj2 (tool_execute_spec [ls] "c3" "ls" [("path", VStr "/missing")]))))
             ls "File not found"); reflexivity.
Defined.

End ToolRegistryFacts.

(* ------------------------------------------------------------------ *)
(** ** Strings *)

Module StringFacts.

Lemma append_empty_r (s : string) : (s ++ "")%string = s.
Proof. induction s as [|c s IH]; simpl; [reflexivity | now rewrite IH]. Qed.

Lemma append_assoc_str (a b c : string) : ((a ++ b) ++ c)%string = (a ++ (b ++ c))%string.
Proof. induction a as [|x a IH]; simpl; [reflexivity | now rewrite IH]. Qed.

End StringFacts.

(* ------------------------------------------------------------------ *)
(** ** The speech recognition hook *)

Module SpeechFacts.
Import Speech Observe StringFacts.

Lemma skipn_cons_nth (rs : list SRResult) : forall i r l,
  skipn i rs = r :: l -> nth_error rs i = Some r /\ skipn (S i) rs = l.
Proof.
  induction rs as [|r0 rs IH]; intros i r l H.
  - destruct i; discriminate.
  - destruct i as [|i]; simpl in *.
    + inversion H; subst. auto.
    + apply IH. exact H.
Qed.

Lemma skipn_nil_nth (rs : list SRResult) : forall i,
  skipn i rs = [] -> nth_error rs i = None.
Proof.
  induction rs as [|r0 rs IH]; intros i H.
  - destruct i; reflexivity.
  - destruct i as [|i]; simpl in *; [discriminate | apply IH; exact H].
Qed.

(** The loop of [onresult] over the results from [i] on. *)
Lemma result_loop_spec (rs : list SRResult) : forall l n i fin interim,
  skipn i rs = l -> length l <= n ->
  result_loop rs i n fin interim =
  if existsb no_alt l then None
  else Some ((fin ++ pick true l)%string, (interim ++ pick false l)%string).
Proof.
  induction l as [|r l IH]; intros n i fin interim Hs Hn.
  - cbn [existsb pick]. rewrite !append_empty_r.
    destruct n; simpl; [reflexivity|]. rewrite (skipn_nil_nth rs i Hs). reflexivity.
  - destruct n as [|n]; simpl in Hn; [lia|].
    destruct (skipn_cons_nth rs i r l Hs) as [Hnth Hs'].
    cbn [result_loop existsb pick]. rewrite Hnth. unfold no_alt at 1.
    destruct (alts r) as [|a al]; [reflexivity|]. cbn [orb].
    destruct (isFinal r); cbn [Bool.eqb];
      rewrite (IH n (S i)) by first [exact Hs' | lia]; rewrite append_assoc_str; reflexivity.
Qed.

(** X1: [onresult] ignores the results before [event.resultIndex]; from
    there on it yields the concatenated first transcripts of the final
    results, or of the interim ones when those are empty; a result with no
    alternative makes the handler throw and leaves the transcript as it was. *)
Theorem speech_onresult_transcript (resultIndex : nat) (results : list SRResult) :
  onresult resultIndex results =
  (if existsb no_alt (skipn resultIndex results) then None
   else Some (if String.eqb (pick true (skipn resultIndex results)) ""
              then pick false (skipn resultIndex results)
              else pick true (skipn resultIndex results))).
Proof.
  unfold onresult.
  rewrite (result_loop_spec results (skipn resultIndex results))
    by first [reflexivity | rewrite length_skipn; lia].
  destruct (existsb no_alt (skipn resultIndex results)); reflexivity.
Qed.

Lemma sstep_listening (e : sevent) (s : SpeechState) :
  isListening s = true -> ends_session e = false ->
  isListening (sstep e s) = true /\
  (calls (sstep e s) = calls s \/ calls (sstep e s) = calls s ++ [CallStop]).
Proof.
  intros Hl He. destruct e; simpl in He; try discriminate; simpl.
  - unfold startListening. rewrite Hl, orb_true_r. auto.
  - unfold stopListening. rewrite Hl. destruct (hasRecognition s); simpl; auto.
  - auto.
  - unfold onresult_state. destruct (onresult resultIndex results); simpl; auto.
Qed.

(** X2: while recognition is running (after [onstart], before [onend] or
    [onerror]), no call of the hook's API or callback calls
    [recognition.start()] again or clears [isListening]; only [stop()] calls
    are added. *)
Theorem speech_no_restart_while_listening (es : list sevent) (s : SpeechState) :
  isListening s = true -> forallb (fun e => negb (ends_session e)) es = true ->
  isListening (srun es s) = true /\
  exists k, calls (srun es s) = calls s ++ repeat CallStop k.
Proof.
  revert s. induction es as [|e es IH]; intros s Hl Hes.
  - split; [exact Hl|]. exists 0. simpl. symmetry. apply app_nil_r.
  - simpl in Hes. apply andb_true_iff in Hes as [He Hes]. apply negb_true_iff in He.
    destruct (sstep_listening e s Hl He) as [Hl' Hc].
    destruct (IH (sstep e s) Hl' Hes) as [Hl'' [k Hk]].
    simpl. split; [exact Hl''|]. destruct Hc as [Hc|Hc].
    + exists k. rewrite Hk, Hc. reflexivity.
    + exists (S k). rewrite Hk, Hc, <- app_assoc. reflexivity.
Qed.

Lemma speech_no_restart_while_listening_witness :
  isListening (srun [SStart false; SOnResult 0 [{| isFinal := false; alts := ["hi"] |}]; SStop]
                 {| isListening := true; transcript := ""; serror := None;
                    hasRecognition := true; calls := [CallStart] |}) = true /\
  exists k, calls (srun [SStart false; SOnResult 0 [{| isFinal := false; alts := ["hi"] |}]; SStop]
                 {| isListening := true; transcript := ""; serror := None;
                    hasRecognition := true; calls := [CallStart] |})
            = [CallStart] ++ repeat CallStop k.
Proof.
  apply (speech_no_restart_while_listening
           [SStart false; SOnResult 0 [{| isFinal := false; alts := ["hi"] |}]; SStop]
           {| isListening := true; transcript := ""; serror := None;
              hasRecognition := true; calls := [CallStart] |}); reflexivity.
Defined.

(** X3: the guard of [startListening] reads [isListening], which only
    [onstart] sets: every call made before [onstart] arrives calls
    [recognition.start()] again and clears the transcript. *)
Theorem speech_start_before_onstart (k : nat) (th : bool) (s : SpeechState) :
  hasRecognition s = true -> isListening s = false ->
  calls (srun (repeat (SStart th) (S k)) s) = calls s ++ repeat CallStart (S k) /\
  transcript (srun (repeat (SStart th) (S k)) s) = "" /\
  isListening (srun (repeat (SStart th) (S k)) s) = false.
Proof.
  revert s. induction k as [|k IH]; intros s Hr Hl.
  - simpl. unfold startListening. rewrite Hr, Hl. simpl. auto.
  - change (srun (repeat (SStart th) (S (S k))) s)
      with (srun (repeat (SStart th) (S k)) (startListening th s)).
    assert (Hs : startListening th s =
      {| isListening := isListening s; transcript := "";
         serror := if th then Some "Failed to start speech recognition" else None;
         hasRecognition := hasRecognition s; calls := calls s ++ [CallStart] |})
      by (unfold startListening; rewrite Hr, Hl; reflexivity).
    rewrite Hs.
    match goal with |- context [srun _ ?r] =>
      destruct (IH r Hr Hl) as [Hc [Ht Hl']] end.
    split; [|split; assumption].
    rewrite Hc. simpl. rewrite <- app_assoc. reflexivity.
Qed.

Lemma speech_start_before_onstart_witness :
  calls (srun (repeat (SStart true) 2)
           {| isListening := false; transcript := "old"; serror := None;
              hasRecognition := true; calls := [] |}) = [] ++ repeat CallStart 2 /\
  transcript (srun (repeat (SStart true) 2)
           {| isListening := false; transcript := "old"; serror := None;
              hasRecognition := true; calls := [] |}) = "" /\
  isListening (srun (repeat (SStart true) 2)
           {| isListening := false; transcript := "old"; serror := None;
              hasRecognition := true; calls := [] |}) = false.
Proof.
  apply (speech_start_before_onstart 1 true
           {| isListening := false; transcript := "old"; serror := None;
              hasRecognition := true; calls := [] |}); reflexivity.
Defined.

End SpeechFacts.

(* ------------------------------------------------------------------ *)
(** ** Sending and unmounting in useNemoSocket *)

Module SocketMoreFacts.
Import Socket SocketMore Observe.




(** X5: unmounting while the socket is OPEN or CONNECTING does not stop
    reconnection: there is no timeout to clear, and the close event that
    the cleanup's [ws.close()] produces still reaches [onclose], which
    (with fewer than MAX_RECONNECT_ATTEMPTS attempts used) schedules a new
    3000 ms timeout whose [connect] passes its OPEN guard and creates a new
    socket. Unmounting while a reconnect timeout is pending (the socket is
    then CLOSED, so [ws.close()] fires nothing) does stop it: the cleared
    timer does nothing. *)
Theorem socket_reconnect_after_unmount (s : Sock) :
  (wsOpen s = true \/ isConnecting s = true) ->
  attempts s < MAX_RECONNECT_ATTEMPTS ->
  attempts (run [EClose; ETimer] (cleanup s)) = S (attempts s) /\
  isConnecting (run [EClose; ETimer] (cleanup s)) = true /\
  error (run [EClose; ETimer] (cleanup s)) = None /\
  scheduled (run [EClose; ETimer] (cleanup s)) = scheduled s ++ [RECONNECT_DELAY] /\
  (forall s', step ETimer (cleanup s') = cleanup s').
Proof.
  intros _ H.
  assert (Hl : Nat.ltb (attempts s) MAX_RECONNECT_ATTEMPTS = true) by (apply Nat.ltb_lt; exact H).
  split; [|split; [|split; [|split]]];
    try (unfold run, step, cleanup, onclose; cbn [attempts]; rewrite Hl;
         unfold onTimer, connect; cbn; reflexivity).
  intro s'. reflexivity.
Qed.

Lemma socket_reconnect_after_unmount_witness :
  attempts (run [EClose; ETimer] (cleanup (run [EOpen] initial))) = 1 /\
  isConnecting (run [EClose; ETimer] (cleanup (run [EOpen] initial))) = true /\
  error (run [EClose; ETimer] (cleanup (run [EOpen] initial))) = None /\
  scheduled (run [EClose; ETimer] (cleanup (run [EOpen] initial)))
  = scheduled (run [EOpen] initial) ++ [RECONNECT_DELAY] /\
  (forall s', step ETimer (cleanup s') = cleanup s').
Proof.
  apply (socket_reconnect_after_unmount (run [EOpen] initial)).
  - left. reflexivity.
  - unfold MAX_RECONNECT_ATTEMPTS. simpl. lia.
Defined.

End SocketMoreFacts.

(* ------------------------------------------------------------------ *)
(** ** App: sending while disconnected, repeated replies *)

Module AppMoreFacts.
Import App AppMore.

Lemma opt_str_eqb_refl (o : option string) : opt_str_eqb o o = true.
Proof. destruct o; simpl; [apply String.eqb_refl | reflexivity]. Qed.

(** X6: sending always shows the user's message; when the socket is not
    open nothing is written and the hook's error becomes 'Not connected to
    Nemo', and the typing indicator is cleared only when that error was not
    already the current one (the error effect runs on a change only); when
    the socket is open the frame [{"text": text}] is written and the
    indicator stays on. *)
Theorem app_send_disconnected (text : string) (a : AppState) (k : Socket.Sock) :
  let '(a', k', out) := send text a k in
  messages a' = messages a ++ [{| m_role := RUser; m_content := text |}] /\
  out = (if Socket.wsOpen k then [Server.client_request text] else []) /\
  Socket.error k' = (if Socket.wsOpen k then Socket.error k else Some "Not connected to Nemo") /\
  isTyping a' = (if Socket.wsOpen k then true
                 else opt_str_eqb (Socket.error k) (Some "Not connected to Nemo")).
Proof.
  unfold send, SocketMore.sendMessage.
  destruct (Socket.wsOpen k); simpl.
  - unfold onError. rewrite opt_str_eqb_refl. auto.
  - unfold onError. simpl.
    destruct (opt_str_eqb (Socket.error k) (Some "Not connected to Nemo")); simpl; auto.
Qed.

(** X7: a reply whose text equals the previously shown reply is dropped
    entirely: after [handleSend], the typing indicator stays on, no Nemo
    message is added and no audio is played. *)
Theorem app_repeated_reply_keeps_typing (u : string) (r : NemoResponse) (a : AppState) :
  processedResponseRef a = Some (r_text r) -> truthy (r_text r) = true ->
  isTyping (onResponse r (handleSend u a)) = true /\
  messages (onResponse r (handleSend u a)) = messages a ++ [{| m_role := RUser; m_content := u |}] /\
  played (onResponse r (handleSend u a)) = played a.
Proof.
  intros Hp Ht. unfold onResponse, handleSend. cbn [processedResponseRef].
  rewrite Ht, Hp, String.eqb_refl. simpl. auto.
Qed.

Lemma app_repeated_reply_keeps_typing_witness :
  isTyping (onResponse {| r_text := "Hey!"; r_audio := "QUJD"; r_visemes := []; r_error := None |}
              (handleSend "hi again"
                 {| messages := []; processedResponseRef := Some "Hey!"; isTyping := false;
                    played := []; sent := [] |})) = true /\
  messages (onResponse {| r_text := "Hey!"; r_audio := "QUJD"; r_visemes := []; r_error := None |}
              (handleSend "hi again"
                 {| messages := []; processedResponseRef := Some "Hey!"; isTyping := false;
                    played := []; sent := [] |}))
    = [] ++ [{| m_role := RUser; m_content := "hi again" |}] /\
  played (onResponse {| r_text := "Hey!"; r_audio := "QUJD"; r_visemes := []; r_error := None |}
              (handleSend "hi again"
                 {| messages := []; processedResponseRef := Some "Hey!"; isTyping := false;
                    played := []; sent := [] |})) = [].
Proof.
  apply (app_repeated_reply_keeps_typing "hi again"
           {| r_text := "Hey!"; r_audio := "QUJD"; r_visemes := []; r_error := None |}
           {| messages := []; processedResponseRef := Some "Hey!"; isTyping := false;
              played := []; sent := [] |}); reflexivity.
Defined.

End AppMoreFacts.

(* ------------------------------------------------------------------ *)
(** ** The websocket endpoint: structure, request fields, memory context *)

Module ServerMoreFacts.
Import Server Observe StringFacts.



(** X9: the endpoint reads only the 'text' field of a request object:
    with a string there, the turn is the one of the front end's
    [{"text": ...}] request whatever other fields ([user_id] included) come
    along; without it the loop ends at once on a single printed error,
    the rest of the requests being left unread. *)
Theorem endpoint_reads_only_text search generate synthesize
  (fs : list (string * json)) (rest : list json) :
  match lookup "text" fs with
  | Some (JStr t) =>
      turn search generate synthesize (JObj fs) = turn search generate synthesize (client_request t)
  | Some _ => True
  | None =>
      exists e, endpoint search generate synthesize (JObj fs :: rest) = [EPrint ("Error: " ++ e)%string]
  end.
Proof.
  destruct (lookup "text" fs) as [[t|l|o]|] eqn:H; try exact I.
  - unfold turn, get_text. rewrite H. reflexivity.
  - eexists. simpl. unfold turn, get_text. rewrite H. reflexivity.
Qed.

Lemma lines_acc_app (m rest cur : string) :
  has_nl m = false -> lines_acc (m ++ rest) cur = lines_acc rest (cur ++ m).
Proof.
  revert cur. induction m as [|c m IH]; intros cur Hm.
  - simpl. rewrite append_empty_r. reflexivity.
  - simpl in Hm. apply orb_false_iff in Hm as [Hc Hm]. simpl. rewrite Hc.
    rewrite IH by exact Hm. rewrite append_assoc_str. reflexivity.
Qed.

Lemma lines_join (ms : list string) : forall m,
  forallb (fun x => negb (has_nl x)) (m :: ms) = true -> lines (join nl (m :: ms)) = m :: ms.
Proof.
  unfold lines. induction ms as [|m2 ms IH]; intros m H.
  - simpl in H. rewrite andb_true_r in H. apply negb_true_iff in H.
    simpl. rewrite <- (append_empty_r m) at 1. rewrite lines_acc_app by exact H. reflexivity.
  - cbn [forallb] in H. apply andb_true_iff in H as [Hm H]. apply negb_true_iff in Hm.
    change (join nl (m :: m2 :: ms)) with (m ++ nl ++ join nl (m2 :: ms))%string.
    rewrite lines_acc_app by exact Hm.
    transitivity (("" ++ m)%string :: lines_acc (join nl (m2 :: ms)) ""); [reflexivity|].
    rewrite (IH m2 H). reflexivity.
Qed.

(** X10: when Mem0's search returns memories none of which contains a line
    break, the context put into the system prompt lists them one per line,
    in order, and splitting it at line breaks gives them back; with no
    memory at all the context is the empty string. *)
Theorem get_context_lines search (text : string) (ms : list string) :
  search text = Ok ms -> forallb (fun x => negb (has_nl x)) ms = true ->
  exists c, get_context search text = Ok c /\
            lines c = (match ms with [] => [""] | _ => ms end).
Proof.
  intros Hs Hn. exists (join nl ms). split.
  - unfold get_context. rewrite Hs. reflexivity.
  - destruct ms as [|m ms]; [reflexivity|]. apply lines_join. exact Hn.
Qed.

Lemma get_context_lines_witness :
  exists c, get_context (fun _ => Ok ["likes jazz"; "has a cat"]) "hello" = Ok c /\
            lines c = ["likes jazz"; "has a cat"].
Proof.
  apply (get_context_lines (fun _ => Ok ["likes jazz"; "has a cat"]) "hello"
           ["likes jazz"; "has a cat"]); reflexivity.
Defined.

End ServerMoreFacts.

(* ------------------------------------------------------------------ *)
(** ** InputBar: what reaches onSend *)

Module InputBarMoreFacts.
Import InputBar.

Lemma ltrim_shape (s : jsstring) :
  ltrim s = [] \/ exists c r, ltrim s = c :: r /\ is_ws c = false.
Proof.
  induction s as [|c r IH]; simpl; [auto|].
  destruct (is_ws c) eqn:Hc; [exact IH | right; eauto].
Qed.

Lemma ltrim_id (c : N) (r : jsstring) : is_ws c = false -> ltrim (c :: r) = c :: r.
Proof. intro Hc. simpl. rewrite Hc. reflexivity. Qed.

Lemma rtrim_last (s : jsstring) :
  rtrim s = [] \/ exists r c, rtrim s = r ++ [c] /\ is_ws c = false.
Proof.
  induction s as [|c r IH]; simpl; [auto|].
  destruct IH as [H|(r' & c' & H & Hw)].
  - rewrite H. simpl. destruct (is_ws c) eqn:Hc; [auto | right; exists [], c; auto].
  - rewrite H. assert (He : is_empty (r' ++ [c']) = false) by (destruct r'; reflexivity).
    rewrite He. simpl. right. exists (c :: r'), c'. auto.
Qed.

Lemma rtrim_cons (c : N) (r : jsstring) :
  is_ws c = false -> exists r', rtrim (c :: r) = c :: r'.
Proof. intro Hc. simpl. rewrite Hc, andb_false_r. eauto. Qed.

Lemma rtrim_id (s : jsstring) :
  (s = [] \/ exists r c, s = r ++ [c] /\ is_ws c = false) -> rtrim s = s.
Proof.
  induction s as [|c t IH]; intro H; [reflexivity|].
  destruct H as [H|(r0 & c0 & H & Hw)]; [discriminate|].
  destruct t as [|x t'].
  - destruct r0 as [|y r0]; simpl in H.
    + inversion H; subst. simpl. rewrite Hw. reflexivity.
    + inversion H as [[Hy Hr]]. destruct r0; discriminate.
  - destruct r0 as [|y r0]; simpl in H; [inversion H|].
    inversion H as [[Hy Hr]]. subst y.
    assert (E : rtrim (x :: t') = x :: t') by (apply IH; right; exists r0, c0; auto).
    replace (rtrim (c :: x :: t')) with
      (if is_empty (rtrim (x :: t')) && is_ws c then [] else c :: rtrim (x :: t'))
      by reflexivity.
    rewrite E. reflexivity.
Qed.

Lemma trim_shape (s : jsstring) :
  trim s = [] \/
  ((exists c r, trim s = c :: r /\ is_ws c = false) /\
   (exists r c, trim s = r ++ [c] /\ is_ws c = false)).
Proof.
  unfold trim. destruct (ltrim_shape s) as [H|(c & r & H & Hc)].
  - rewrite H. auto.
  - rewrite H. destruct (rtrim_last (c :: r)) as [Hl|Hl]; [auto|]. right. split; [|exact Hl].
    destruct (rtrim_cons c r Hc) as [r' Hr]. rewrite Hr. eauto.
Qed.

Lemma trim_idem (s : jsstring) : trim (trim s) = trim s.
Proof.
  destruct (trim_shape s) as [H|[(c & r & Hf & Hc) Hl]].
  - rewrite H. reflexivity.
  - unfold trim at 1. rewrite Hf. rewrite (ltrim_id c r Hc). apply rtrim_id.
    right. rewrite <- Hf. exact Hl.
Qed.

(** X11: every text [handleSend] hands to [onSend] is the trimmed input: it
    is non-empty, begins and ends with a code unit that String.prototype.trim
    keeps, and is left unchanged by a second trim; the input box is then
    cleared. Otherwise nothing is sent and the bar is unchanged. *)
Theorem inputbar_sends_trimmed (d : bool) (b : Bar) :
  handleSend d b = b \/
  exists t, onSendCalls (handleSend d b) = onSendCalls b ++ [t] /\
            input (handleSend d b) = [] /\
            t = trim (input b) /\ trim t = t /\
            (exists c r, t = c :: r /\ is_ws c = false) /\
            (exists r c, t = r ++ [c] /\ is_ws c = false).
Proof.
  unfold handleSend. cbv zeta.
  destruct (negb (is_empty (trim (input b))) && negb d) eqn:Hs; [|auto].
  right. exists (trim (input b)). simpl. split; [reflexivity|]. split; [reflexivity|].
  split; [reflexivity|]. split; [apply trim_idem|].
  apply andb_true_iff in Hs as [Hn _]. apply negb_true_iff in Hn.
  destruct (trim_shape (input b)) as [H|H]; [|exact H].
  rewrite H in Hn. discriminate.
Qed.

End InputBarMoreFacts.

(* ------------------------------------------------------------------ *)
(** ** useAudioPlayer: the level analysis *)

Module AudioPlayerFacts.
Import AudioPlayer.

(** X12: App calls the [playAudio] of its latest render, whose
    [analyzeAudio] reads that render's [isPlaying]. When a non-empty reply
    audio starts while nothing was playing, [onplay] sets [isPlaying] but
    the analysis sees [false]: the level is set to 0 and no animation frame
    is requested, so the level is never measured for that audio. When
    another audio was playing, the old one is paused and the level is
    measured with a next frame requested. *)
Theorem audio_level_needs_prior_playback (b : string) (data : list nat) (s : Player) :
  b <> "" ->
  isPlaying (onplay data (playAudio (isPlaying s) b s)) = true /\
  audioLevel (onplay data (playAudio (isPlaying s) b s)) =
    (if isPlaying s then LAvg (fold_left Nat.add data 0) (length data) else LZero) /\
  framePending (onplay data (playAudio (isPlaying s) b s)) =
    (if isPlaying s then true else framePending s) /\
  paused (onplay data (playAudio (isPlaying s) b s)) =
    paused s ++ (match current s with Some a => [a] | None => [] end).
Proof.
  intro Hb. apply String.eqb_neq in Hb.
  unfold onplay, playAudio. rewrite Hb. unfold analyzeAudio. cbn.
  destruct (isPlaying s); cbn; auto.
Qed.

Lemma audio_level_needs_prior_playback_witness :
  isPlaying (onplay [10; 20] (playAudio false "QUJD"
     {| isPlaying := false; audioLevel := LZero; current := None; paused := [];
        hasAnalyser := false; framePending := false; onplayAnalyzeSees := false |})) = true /\
  audioLevel (onplay [10; 20] (playAudio false "QUJD"
     {| isPlaying := false; audioLevel := LZero; current := None; paused := [];
        hasAnalyser := false; framePending := false; onplayAnalyzeSees := false |})) = LZero /\
  framePending (onplay [10; 20] (playAudio false "QUJD"
     {| isPlaying := false; audioLevel := LZero; current := None; paused := [];
        hasAnalyser := false; framePending := false; onplayAnalyzeSees := false |})) = false /\
  paused (onplay [10; 20] (playAudio false "QUJD"
     {| isPlaying := false; audioLevel := LZero; current := None; paused := [];
        hasAnalyser := false; framePending := false; onplayAnalyzeSees := false |})) = [] ++ [].
Proof.
  apply (audio_level_needs_prior_playback "QUJD" [10; 20]
     {| isPlaying := false; audioLevel := LZero; current := None; paused := [];
        hasAnalyser := false; framePending := false; onplayAnalyzeSees := false |}).
  discriminate.
Defined.

End AudioPlayerFacts.
